(** * bun-plugin-bundle: asset resolution and runtime override table

    A shallow embedding of [src/index.ts]: the build-time part
    ([sanitizeSegment], [normalizeTargetName], the per-asset resolution
    chain of [setup], the manifest key expansion) and the run-time part
    that the plugin emits as source text ([registerKey], [registerAll],
    the embed-mode extraction loop, the merge into the process-global
    table, [findOverride], [applyOverride], the three patched resolvers
    and [installResolvers]).

    JavaScript strings are modelled as [string]; every code unit outside
    the 8-bit range behaves like any other character outside the class
    [[A-Za-z0-9._-]].  Host primitives ([node:path], [node:url],
    [Bun.file(..).exists()], [import.meta.resolve]) are the fields of the
    class [Host]. *)

From Stdlib Require Import String Ascii List Bool NArith Lia.
From stdpp Require Import base option strings list gmap.

Local Open Scope string_scope.
Local Open Scope list_scope.
Import ListNotations.

(** ** JavaScript string helpers *)

Module Js.

(** [s.startsWith(p)] *)
Definition startsWith (p s : string) : bool := String.prefix p s.

(** [Boolean(s)] for a string: the empty string is falsy. *)
Definition truthy (s : string) : bool :=
  match s with
  | EmptyString => false
  | String _ _ => true
  end.

(** [Boolean(v)] for a value that is a string, [null] or [undefined]. *)
Definition truthyOpt (v : option string) : bool :=
  match v with
  | Some s => truthy s
  | None => false
  end.

(** [l.join(sep)] *)
Definition join (sep : string) (l : list string) : string := String.concat sep l.

(** [l.includes(x)] *)
Definition includes (x : string) (l : list string) : bool :=
  existsb (String.eqb x) l.

(** [s.slice(n)] for [0 <= n] *)
Fixpoint slice (n : nat) (s : string) : string :=
  match n, s with
  | O, _ => s
  | S n', String _ rest => slice n' rest
  | S _, EmptyString => EmptyString
  end.

(** [s.split(re)] where [re] matches a non-empty run of characters
    satisfying [sep] (used with [/[\\/]+/]).  [after_sep] tells that the
    previous character belonged to the run being consumed. *)
Fixpoint splitRuns (sep : ascii -> bool) (after_sep : bool) (s : string) : list string :=
  match s with
  | EmptyString => [EmptyString]
  | String c rest =>
      if sep c then
        if after_sep then splitRuns sep true rest
        else EmptyString :: splitRuns sep true rest
      else
        match splitRuns sep false rest with
        | seg :: segs => String c seg :: segs
        | [] => [String c EmptyString]
        end
  end.

(** [s.split(c)] for a one-character separator [c]. *)
Fixpoint splitChar (c0 : ascii) (s : string) : list string :=
  match s with
  | EmptyString => [EmptyString]
  | String c rest =>
      if Ascii.eqb c c0 then EmptyString :: splitChar c0 rest
      else
        match splitChar c0 rest with
        | seg :: segs => String c seg :: segs
        | [] => [String c EmptyString]
        end
  end.

(** [Array.from(new Set(l))]: first occurrences, in insertion order. *)
Fixpoint setAddAll (seen : list string) (l : list string) : list string :=
  match l with
  | [] => seen
  | x :: l' => if includes x seen then setAddAll seen l' else setAddAll (seen ++ [x]) l'
  end.

Definition arrayFromSet (l : list string) : list string := setAddAll [] l.

(** Every character of [s] satisfies [p]. *)
Fixpoint all (p : ascii -> bool) (s : string) : bool :=
  match s with
  | EmptyString => true
  | String c rest => p c && all p rest
  end.

End Js.

(** ** Key normalizer (build time) *)

(** Membership in the class [[A-Za-z0-9._-]]. *)
Definition segmentChar (c : ascii) : bool :=
  let n := N_of_ascii c in
  ((65 <=? n) && (n <=? 90) || (97 <=? n) && (n <=? 122) || (48 <=? n) && (n <=? 57)
   || (n =? 46) || (n =? 95) || (n =? 45))%N.

(** [value.replace(/[^A-Za-z0-9._-]/g, '-')] *)
Fixpoint sanitizeSegment (value : string) : string :=
  match value with
  | EmptyString => EmptyString
  | String c rest => String (if segmentChar c then c else "-"%char) (sanitizeSegment rest)
  end.

(** The separator class [[\\/]]. *)
Definition isSeparator (c : ascii) : bool :=
  Ascii.eqb c "/"%char || Ascii.eqb c "\"%char.

(** [value.split(/[\\/]+/).filter(Boolean)] *)
Definition targetSegments (value : string) : list string :=
  filter (fun s => Is_true (Js.truthy s)) (Js.splitRuns isSeparator false value).

Definition normalizeTargetName (value : string) : string :=
  let segments := targetSegments value in
  if Nat.eqb (length segments) 0 then sanitizeSegment "asset"
  else Js.join "/" (map sanitizeSegment segments).


Definition relativePathOf (basename : string -> string)
    (targetName : option string) (sourcePath specifier : string) : string :=
  (* const baseName = targetName ?? path.basename(sourcePath); *)
  let baseName := match targetName with Some t => t | None => basename sourcePath end in
  match targetName with
  | Some t => normalizeTargetName t
  | None => sanitizeSegment (if Js.truthy baseName then baseName else specifier)
  end.

(** ** Host primitives *)

(** Outcome of a call that may throw; [Throw] carries [String(err)]. *)
Inductive result (A : Type) : Type :=
| Ok (a : A)
| Throw (e : string).
Arguments Ok {A} a.
Arguments Throw {A} e.

(** The functions of [node:path], [node:url], [process], [Bun] and
    [import.meta] that [setup] and the emitted block call.
    [pathToFileURL] stands for [pathToFileURL(p).href], which does not
    throw on a string argument. *)
Class Host : Type := {
  cwd : string;
  normalize : string -> string;
  resolvePath : string -> string -> string;
  isAbsolute : string -> bool;
  basename : string -> string;
  dirname : string -> string;
  pathToFileURL : string -> string;
  fileURLToPath : string -> result string;
  fileExists : string -> bool;
  metaResolve : string -> option string -> result string
}.

(** ** Specifier resolver (build time) *)

(** What the resolution of one asset asks of the host, in order. *)
Inductive event : Type :=
| EvExists (p : string) (r : bool)
| EvToPath (url : string) (r : result string)
| EvResolve (parent : option string) (r : result string).

(** The variables [attempted], [resolutionErrors], [sourcePath] and
    [sourceUrl] of one iteration of the asset loop, and the host calls
    made so far. *)
Record rstate : Type := mkRstate {
  st_attempted : list string;
  st_resolutionErrors : list string;
  st_sourcePath : option string;
  st_sourceUrl : option string;
  st_trace : list event
}.

Definition initial : rstate := mkRstate [] [] None None [].

Definition pushAttempted (p : string) (st : rstate) : rstate :=
  mkRstate (st_attempted st ++ [p]) (st_resolutionErrors st)
           (st_sourcePath st) (st_sourceUrl st) (st_trace st).

Definition pushError (e : string) (st : rstate) : rstate :=
  mkRstate (st_attempted st) (st_resolutionErrors st ++ [e])
           (st_sourcePath st) (st_sourceUrl st) (st_trace st).

Definition record (ev : event) (st : rstate) : rstate :=
  mkRstate (st_attempted st) (st_resolutionErrors st)
           (st_sourcePath st) (st_sourceUrl st) (st_trace st ++ [ev]).

Definition setSourceUrl (u : string) (st : rstate) : rstate :=
  mkRstate (st_attempted st) (st_resolutionErrors st)
           (st_sourcePath st) (Some u) (st_trace st).

(** [!sourcePath] *)
Definition unresolved (st : rstate) : bool := negb (Js.truthyOpt (st_sourcePath st)).

Section Resolver.
Context `{Host}.
Variable specifier : string.

Definition registerMatch (absolutePath : string) (url : option string) (st : rstate) : rstate :=
  let sp := normalize absolutePath in
  mkRstate (st_attempted st) (st_resolutionErrors st) (Some sp)
           (Some (match url with Some u => u | None => pathToFileURL sp end))
           (st_trace st).

Definition tryPath (candidatePath : string) (st : rstate) : bool * rstate :=
  let normalized := normalize candidatePath in
  if Js.includes normalized (st_attempted st) then (false, st)
  else
    let st := pushAttempted normalized st in
    let exists_ := fileExists normalized in
    let st := record (EvExists normalized exists_) st in
    if exists_ then (true, registerMatch normalized None st)
    else (false, st).

Definition toFilePath (resolved : string) (st : rstate) : result string * rstate :=
  if Js.startsWith "file://" resolved then
    let r := fileURLToPath resolved in (r, record (EvToPath resolved r) st)
  else
    (Ok (if isAbsolute resolved then resolved else resolvePath cwd resolved), st).

Definition tryUrl (candidateUrl : string) (st : rstate) : bool * rstate :=
  match toFilePath candidateUrl st with
  | (Throw err, st) => (false, pushError err st)
  | (Ok filePath, st) =>
      let '(matched, st) := tryPath filePath st in
      match st_sourcePath st with
      | Some sp =>
          if matched && Js.truthy sp then
            (matched,
             setSourceUrl (if Js.startsWith "file://" candidateUrl then candidateUrl
                           else pathToFileURL sp) st)
          else (matched, st)
      | None => (matched, st)
      end
  end.

Definition attemptImportMetaResolve (parentUrl : option string) (st : rstate) : bool * rstate :=
  let parent := if Js.truthyOpt parentUrl then parentUrl else None in
  let r := metaResolve specifier parent in
  let st := record (EvResolve parent r) st in
  match r with
  | Ok resolvedUrl => tryUrl resolvedUrl st
  | Throw err => (false, pushError err st)
  end.

(** [for (const dir of entrypointDirs) if (await tryPath(..)) break;] *)
Fixpoint tryDirs (dirs : list string) (st : rstate) : rstate :=
  match dirs with
  | [] => st
  | dir :: rest =>
      let '(ok, st) := tryPath (resolvePath dir specifier) st in
      if ok then st else tryDirs rest st
  end.

(** [for (const parentUrl of entrypointUrlParents) if (await attempt..) break;] *)
Fixpoint tryParents (parents : list string) (st : rstate) : rstate :=
  match parents with
  | [] => st
  | parentUrl :: rest =>
      let '(ok, st) := attemptImportMetaResolve (Some parentUrl) st in
      if ok then st else tryParents rest st
  end.

Definition isRelative : bool :=
  Js.startsWith "./" specifier || Js.startsWith "../" specifier.

Definition isUrlOrAbsolute : bool :=
  Js.startsWith "file://" specifier || isAbsolute specifier.

(** The resolution chain of one asset, up to the [NotFound] test. *)
Definition resolveChain (entrypointAbsPaths : list string) : rstate :=
  let entrypointDirs := map dirname entrypointAbsPaths in
  let entrypointUrlParents := map pathToFileURL entrypointAbsPaths in
  let st := initial in
  let st :=
    if Js.startsWith "file://" specifier then snd (tryUrl specifier st)
    else if isAbsolute specifier then snd (tryPath specifier st)
    else st in
  let st :=
    if unresolved st && isRelative then
      let st := snd (tryPath (resolvePath cwd specifier) st) in
      if unresolved st then tryDirs entrypointDirs st else st
    else st in
  let st := if unresolved st then tryParents entrypointUrlParents st else st in
  let st := if unresolved st then snd (attemptImportMetaResolve None st) else st in
  let st :=
    if unresolved st && negb isUrlOrAbsolute
    then snd (tryPath (resolvePath cwd specifier) st)
    else st in
  st.

End Resolver.

(** ** Asset entries and the per-asset loop body *)

Inductive AssetInput : Type :=
| AssetString (s : string)
| AssetObject (specifier : string) (targetName : option string)
              (runtimeKeys : option (list string)).

Record ResolvedAsset : Type := mkResolvedAsset {
  specifier : string;
  sourcePath : string;
  sourceUrl : string;
  relativePath : string;
  runtimeKeys : list string
}.

Definition quote : string := String (ascii_of_nat 34) EmptyString.
Definition newline : string := String (ascii_of_nat 10) EmptyString.

(** The message of the error thrown when [sourcePath] is still unset. *)
Definition notFoundMessage (specifier : string) (attempted resolutionErrors : list string) : string :=
  let resolutionSummary :=
    if Nat.ltb 0 (length attempted)
    then newline +:+ "Checked: " +:+ Js.join ", " attempted else "" in
  let errorSummary :=
    if Nat.ltb 0 (length resolutionErrors)
    then newline +:+ "Resolver errors: " +:+ Js.join "; " resolutionErrors else "" in
  "bundleAssetsPlugin could not locate asset " +:+ quote +:+ specifier +:+ quote +:+ "."
    +:+ resolutionSummary +:+ errorSummary.

Section Setup.
Context `{Host}.

Definition entrySpecifier (entry : AssetInput) : string :=
  match entry with
  | AssetString s => s
  | AssetObject s _ _ => s
  end.

Definition entryTargetName (entry : AssetInput) : option string :=
  match entry with
  | AssetString _ => None
  | AssetObject _ t _ => t
  end.

Definition entryRuntimeKeys (entry : AssetInput) : list string :=
  match entry with
  | AssetString _ => []
  | AssetObject _ _ (Some ks) => ks
  | AssetObject _ _ None => []
  end.

(** One iteration of [for (const entry of assets)]. *)
Definition processEntry (entrypointAbsPaths : list string) (entry : AssetInput)
    : result ResolvedAsset :=
  let specifier := entrySpecifier entry in
  let targetName := entryTargetName entry in
  let st := resolveChain specifier entrypointAbsPaths in
  match st_sourcePath st with
  | Some sp =>
      if Js.truthy sp then
        Ok (mkResolvedAsset specifier sp
              (match st_sourceUrl st with Some u => u | None => pathToFileURL sp end)
              (relativePathOf basename targetName sp specifier)
              (entryRuntimeKeys entry))
      else Throw (notFoundMessage specifier (st_attempted st) (st_resolutionErrors st))
  | None => Throw (notFoundMessage specifier (st_attempted st) (st_resolutionErrors st))
  end.

(** The whole asset loop: the first failure aborts the build. *)
Fixpoint processAssets (entrypointAbsPaths : list string) (assets : list AssetInput)
    : result (list ResolvedAsset) :=
  match assets with
  | [] => Ok []
  | entry :: rest =>
      match processEntry entrypointAbsPaths entry with
      | Throw e => Throw e
      | Ok a =>
          match processAssets entrypointAbsPaths rest with
          | Throw e => Throw e
          | Ok l => Ok (a :: l)
          end
      end
  end.

(** [configuredEntrypoints.map(entry => path.resolve(process.cwd(), entry))] *)
Definition entrypointAbsPathsOf (configuredEntrypoints : list string) : list string :=
  map (resolvePath cwd) configuredEntrypoints.

End Setup.

(** ** Manifest (build time) *)

Record ManifestEntry : Type := mkManifestEntry {
  m_specifier : string;
  m_relativePath : string;
  m_keys : list string;
  m_data : string
}.

(** [key.replace(/^\.\//, '')] *)
Definition stripDotSlash (key : string) : string :=
  if Js.startsWith "./" key then Js.slice 2 key else key.

(** The [keys] array of a manifest entry. *)
Definition manifestKeys (asset : ResolvedAsset) : list string :=
  Js.arrayFromSet
    (filter (fun k => Is_true (Js.truthy k))
       (runtimeKeys asset
        ++ flat_map (fun key =>
                       let normalized := stripDotSlash key in
                       ["file:///$bunfs/root/" +:+ normalized; "/$bunfs/root/" +:+ normalized])
                    (filter (fun key => Is_true (Js.startsWith "./" key)) (runtimeKeys asset))
        ++ [specifier asset; sourcePath asset; sourceUrl asset])).

(** An element of [runtimeAssetsLiteral] ([data] is absent there) or, with
    the base64 payload, of [compileAssetsLiteral]. *)
Definition manifestEntry (data : string) (asset : ResolvedAsset) : ManifestEntry :=
  mkManifestEntry (specifier asset) (relativePath asset) (manifestKeys asset) data.

(** ** The emitted block (run time): override table construction *)

(** What the emitted block needs besides [Host]: [import.meta.dir],
    [path.join], [new URL(u).pathname], [Buffer.from(d, "base64")] and the
    three [node:fs] calls over a file-system state [fs].  [fs.existsSync]
    reports a failure as [false] and never throws. *)
Class Runtime : Type := {
  runtimeDir : string;
  joinPath : string -> list string -> string;
  urlPathname : string -> result string;
  base64Decode : string -> string;
  fs : Type;
  existsSync : string -> fs -> bool;
  mkdirSync : string -> fs -> result unit * fs;
  writeFileSync : string -> string -> fs -> result unit * fs
}.

(** [Object.prototype.hasOwnProperty.call(object, key)] *)
Definition hasOwn (object : gmap string string) (key : string) : bool :=
  match object !! key with
  | Some _ => true
  | None => false
  end.

(** [variants.add(candidate)] guarded by [addVariant]. *)
Definition addVariant (candidate : string) (variants : list string) : list string :=
  if Js.truthy candidate then
    if Js.includes candidate variants then variants else variants ++ [candidate]
  else variants.

(** [if (!hasOwn(overrides, variant)) overrides[variant] = value;] *)
Definition setIfAbsent (value : string) (overrides : gmap string string) (variant : string)
    : gmap string string :=
  if hasOwn overrides variant then overrides else <[variant := value]> overrides.

Section Registration.
Context `{Host} `{Runtime}.

(** The set [variants] of [registerKey], in insertion order. *)
Definition keyVariants (key : string) : list string :=
  let variants := [key] in
  if Js.startsWith "file://" key then
    match fileURLToPath key with
    | Ok p => addVariant p variants
    | Throw _ => variants
    end
  else if Js.startsWith "/$bunfs/root/" key then
    addVariant ("file://" +:+ key) variants
  else if isAbsolute key then
    addVariant (pathToFileURL key) variants
  else if Js.startsWith "./" key || Js.startsWith "../" key then
    let absoluteFromRuntime := resolvePath runtimeDir key in
    let variants := addVariant absoluteFromRuntime variants in
    let variants := addVariant (pathToFileURL absoluteFromRuntime) variants in
    if Js.startsWith "./" key then
      let trimmed := Js.slice 2 key in
      let variants := addVariant ("/$bunfs/root/" +:+ trimmed) variants in
      addVariant ("file:///$bunfs/root/" +:+ trimmed) variants
    else variants
  else variants.

Definition registerKey (key value : string) (overrides : gmap string string)
    : gmap string string :=
  if negb (Js.truthy key) then overrides
  else foldl (setIfAbsent value) overrides (keyVariants key).

Definition registerAll (keys : list string) (value : string)
    (overrides : gmap string string) : gmap string string :=
  let overrides := registerKey value value overrides in
  let overrides := registerKey (pathToFileURL value) value overrides in
  foldl (fun o key => registerKey key value o) overrides keys.

(** Copy mode: [path.resolve(runtimeDir, asset.relativePath)] *)
Definition copyOutputPath (asset : ManifestEntry) : string :=
  resolvePath runtimeDir (m_relativePath asset).

(** Embed mode: [path.join(cacheDir, ...asset.relativePath.split("/"))] *)
Definition embedOutputPath (cacheDir : string) (asset : ManifestEntry) : string :=
  joinPath cacheDir (Js.splitChar "/" (m_relativePath asset)).

(** [for (const asset of entries) registerAll(asset.keys, outputPath);] *)
Definition registerEntries (outputPath : ManifestEntry -> string)
    (entries : list ManifestEntry) (overrides : gmap string string) : gmap string string :=
  foldl (fun o asset => registerAll (m_keys asset) (outputPath asset) o) overrides entries.

(** The table [overrides] of a copy-mode block. *)
Definition copyOverrides (entries : list ManifestEntry) : gmap string string :=
  registerEntries copyOutputPath entries ∅.

End Registration.

(** ** The emitted block: embed-mode extraction *)

Section Extraction.
Context `{Host} `{Runtime}.

(** Statements over the file system that may throw. *)
Definition M (A : Type) : Type := fs -> result A * fs.

Definition ret {A} (a : A) : M A := fun s => (Ok a, s).

Definition bind {A B} (m : M A) (k : A -> M B) : M B :=
  fun s => match m s with
           | (Ok a, s') => k a s'
           | (Throw e, s') => (Throw e, s')
           end.

(** [try { m } catch (err) { /* ignore */ }] *)
Definition tryIgnore {A} (m : M A) : M unit :=
  fun s => match m s with
           | (Ok _, s') => (Ok tt, s')
           | (Throw _, s') => (Ok tt, s')
           end.

Definition exists_ (p : string) : M bool := fun s => (Ok (existsSync p s), s).
Definition mkdir (p : string) : M unit := mkdirSync p.
Definition writeFile (p data : string) : M unit := writeFileSync p data.
Definition lift {A} (r : result A) : M A := fun s => (r, s).

Fixpoint forEach {A} (l : list A) (body : A -> M unit) : M unit :=
  match l with
  | [] => ret tt
  | x :: rest => bind (body x) (fun _ => forEach rest body)
  end.

(** The [bunfsUrl] of a key, [null] when the key is not a [$bunfs] form. *)
Definition bunfsUrlOf (key : string) : option string :=
  if Js.startsWith "file:///$bunfs/root/" key then Some key
  else if Js.startsWith "/$bunfs/root/" key then Some ("file://" +:+ key)
  else None.

(** Body of [for (const key of asset.keys || [])]. *)
Definition extractKey (buffer : string) (key : string) : M unit :=
  match bunfsUrlOf key with
  | None => ret tt
  | Some bunfsUrl =>
      if negb (Js.truthy bunfsUrl) then ret tt
      else
        tryIgnore
          (bind (lift (urlPathname bunfsUrl)) (fun bunfsPath =>
           bind (exists_ bunfsPath) (fun present =>
           if negb present then
             bind (mkdir (dirname bunfsPath)) (fun _ => writeFile bunfsPath buffer)
           else ret tt)))
  end.

(** Body of [for (const asset of encoded)], up to [registerAll]. *)
Definition extractAsset (cacheDir : string) (asset : ManifestEntry) : M unit :=
  let outputPath := embedOutputPath cacheDir asset in
  let buffer := base64Decode (m_data asset) in
  bind (exists_ outputPath) (fun present =>
  bind (if negb present then
          bind (tryIgnore (mkdir (dirname outputPath))) (fun _ =>
          tryIgnore (writeFile outputPath buffer))
        else ret tt) (fun _ =>
  forEach (m_keys asset) (extractKey buffer))).

Fixpoint foldM {A B} (l : list A) (body : B -> A -> M B) (b : B) : M B :=
  match l with
  | [] => ret b
  | x :: rest => bind (body b x) (foldM rest body)
  end.

(** The embed-mode part of the block: cache directory, then for every
    element of [encoded] extraction followed by [registerAll], then the
    registration loop over [entries]. *)
Definition embedBlock (cacheDir : string) (encoded entries : list ManifestEntry)
    : M (gmap string string) :=
  bind (tryIgnore
          (bind (exists_ cacheDir) (fun present =>
           if negb present then mkdir cacheDir else ret tt))) (fun _ =>
  bind (foldM encoded
          (fun overrides asset =>
             bind (extractAsset cacheDir asset) (fun _ =>
             ret (registerAll (m_keys asset) (embedOutputPath cacheDir asset) overrides)))
          ∅) (fun overrides =>
  ret (registerEntries (embedOutputPath cacheDir) entries overrides))).

End Extraction.

(** ** The emitted block: process-global table and patched resolvers *)

(** The merge of [overrides] into [globalThis[globalKey]].  [globals] maps
    each name of [globalThis] that holds a table (an object whose values
    are strings) to that table; for any other name [globalThis[name]] is
    [undefined] or not an object, and the block starts from a fresh
    table. *)
Definition merge (globalKey : string) (overrides : gmap string string)
    (globals : gmap string (gmap string string)) : gmap string (gmap string string) :=
  (* const current = globalThis[globalKey]; *)
  let target := match globals !! globalKey with
                | Some current => current
                | None => ∅
                end in
  (* for (const key of Object.keys(overrides)) target[key] = overrides[key]; *)
  let target := map_fold (fun key value tgt => <[key := value]> tgt) target overrides in
  <[globalKey := target]> globals.

Section Lookup.
Context `{Host}.
Variable globalKey : string.

Definition findOverride (key : string) (globals : gmap string (gmap string string))
    : option string :=
  if negb (Js.truthy key) then None
  else
    match globals !! globalKey with
    | None => None
    | Some table =>
        if hasOwn table key then table !! key
        else if Js.startsWith "file://" key then
          match fileURLToPath key with
          | Ok fsPath => if hasOwn table fsPath then table !! fsPath else None
          | Throw _ => None
          end
        else if isAbsolute key then
          let asUrl := pathToFileURL key in
          if hasOwn table asUrl then table !! asUrl else None
        else if Js.startsWith "/$bunfs/root/" key then
          let asUrl := "file://" +:+ key in
          if hasOwn table asUrl then table !! asUrl else None
        else None
    end.

Definition applyOverride (specifier resolved : string)
    (globals : gmap string (gmap string string)) : string :=
  match findOverride specifier globals with
  | Some bySpecifier => bySpecifier
  | None =>
      match findOverride resolved globals with
      | Some byResolved => byResolved
      | None => resolved
      end
  end.

End Lookup.

(** A promise, observed when it settles. *)
Inductive settled : Type :=
| Fulfilled (v : string)
| Rejected (e : string).

(** What [Bun.resolve] or [import.meta.resolve] hands back. *)
Inductive value : Type :=
| VString (s : string)
| VPromise (p : settled).

(** A resolver with a synchronous result: it is given the specifier and
    its second argument (passed on unchanged), may change the tables, and
    returns or throws.  The tables it leaves are those seen by the code
    that runs on its result. *)
Definition syncResolver : Type :=
  string -> option string -> gmap string (gmap string string)
  -> result string * gmap string (gmap string string).

Definition asyncResolver : Type :=
  string -> option string -> gmap string (gmap string string)
  -> result value * gmap string (gmap string string).

Section Patches.
Context `{Host}.
Variable globalKey : string.

(** [patched], installed as [Bun.resolveSync]. *)
Definition patched (originalResolveSync : syncResolver) : syncResolver :=
  fun specifier options globals =>
    match findOverride globalKey specifier globals with
    | Some direct => (Ok direct, globals)
    | None =>
        match originalResolveSync specifier options globals with
        | (Ok res, globals) => (Ok (applyOverride globalKey specifier res globals), globals)
        | (Throw err, globals) =>
            match findOverride globalKey specifier globals with
            | Some fallback => (Ok fallback, globals)
            | None => (Throw err, globals)
            end
        end
    end.

(** [result.then(output => applyOverride(specifier, output)).catch(..)] *)
Definition thenCatch (specifier : string) (p : settled)
    (globals : gmap string (gmap string string)) : settled :=
  match p with
  | Fulfilled output => Fulfilled (applyOverride globalKey specifier output globals)
  | Rejected err =>
      match findOverride globalKey specifier globals with
      | Some fallback => Fulfilled fallback
      | None => Rejected err
      end
  end.

(** [patchedAsync], installed as [Bun.resolve]. *)
Definition patchedAsync (originalResolve : asyncResolver) : asyncResolver :=
  fun specifier options globals =>
    match findOverride globalKey specifier globals with
    | Some direct => (Ok (VPromise (Fulfilled direct)), globals)
    | None =>
        match originalResolve specifier options globals with
        | (Ok (VPromise p), globals) =>
            (Ok (VPromise (thenCatch specifier p globals)), globals)
        | (Ok (VString res), globals) =>
            (Ok (VString (applyOverride globalKey specifier res globals)), globals)
        | (Throw err, globals) =>
            match findOverride globalKey specifier globals with
            | Some fallback => (Ok (VString fallback), globals)
            | None => (Throw err, globals)
            end
        end
    end.

(** [patchedMetaResolve], installed as [import.meta.resolve]. *)
Definition patchedMetaResolve (originalMetaResolve : asyncResolver) : asyncResolver :=
  fun specifier parent globals =>
    match findOverride globalKey specifier globals with
    | Some direct => (Ok (VString direct), globals)
    | None =>
        match originalMetaResolve specifier parent globals with
        | (Ok (VPromise p), globals) =>
            (Ok (VPromise (thenCatch specifier p globals)), globals)
        | (Ok (VString res), globals) =>
            (Ok (VString (applyOverride globalKey specifier res globals)), globals)
        | (Throw err, globals) =>
            match findOverride globalKey specifier globals with
            | Some fallback => (Ok (VString fallback), globals)
            | None => (Throw err, globals)
            end
        end
    end.

End Patches.

(** ** The emitted block: [installResolvers] *)

(** A resolver function value: one the process started with, or a wrapper
    built by [installResolvers] around [original], closed over the
    [globalKey] of the block that built it. *)
Inductive fn : Type :=
| Native (id : nat)
| Wrapper (globalKey : string) (original : fn).

(** [f.__bundleAssetsPatched] *)
Definition bundleAssetsPatched (f : fn) : bool :=
  match f with
  | Wrapper _ _ => true
  | Native _ => false
  end.

(** Number of wrappers around the native function. *)
Fixpoint wrapDepth (f : fn) : nat :=
  match f with
  | Native _ => 0
  | Wrapper _ g => S (wrapDepth g)
  end.

(** Process-wide state read and written by [installResolvers]:
    [globalThis.__bundleAssetsResolversInstalled], [Bun.resolveSync] and
    [Bun.resolve] ([None] when [Bun] is absent or the property is not a
    function). *)
Record process : Type := mkProcess {
  resolversInstalled : bool;
  bunResolveSync : option fn;
  bunResolve : option fn
}.

(** [import.meta] of the module the block runs in: its [resolve] and
    whether assigning or redefining the property succeeds. *)
Record moduleMeta : Type := mkModuleMeta {
  importMetaResolve : option fn;
  metaWritable : bool
}.

Definition patchSlot (globalKey : string) (slot : option fn) : option fn :=
  match slot with
  | Some f => if bundleAssetsPatched f then slot else Some (Wrapper globalKey f)
  | None => None
  end.

Definition installResolvers (globalKey : string) (p : process) (meta : moduleMeta)
    : process * moduleMeta :=
  if resolversInstalled p then (p, meta)
  else
    let sync := patchSlot globalKey (bunResolveSync p) in
    let async := patchSlot globalKey (bunResolve p) in
    let meta :=
      if metaWritable meta
      then mkModuleMeta (patchSlot globalKey (importMetaResolve meta)) (metaWritable meta)
      else meta in
    (mkProcess true sync async, meta).

(** Meaning of a function value, given the meaning of the native ones. *)
Fixpoint callSync `{Host} (native : nat -> syncResolver) (f : fn) : syncResolver :=
  match f with
  | Native i => native i
  | Wrapper globalKey g => patched globalKey (callSync native g)
  end.

Fixpoint callAsync `{Host} (native : nat -> asyncResolver) (f : fn) : asyncResolver :=
  match f with
  | Native i => native i
  | Wrapper globalKey g => patchedAsync globalKey (callAsync native g)
  end.

Fixpoint callMeta `{Host} (native : nat -> asyncResolver) (f : fn) : asyncResolver :=
  match f with
  | Native i => native i
  | Wrapper globalKey g => patchedMetaResolve globalKey (callMeta native g)
  end.

(** ** The emitted block as a whole *)

Record world : Type := mkWorld {
  w_globals : gmap string (gmap string string);
  w_process : process
}.

(** An injected block at the point where its [overrides] are built: its
    [globalKey], the table, and the [import.meta] of its module. *)
Record block : Type := mkBlock {
  b_globalKey : string;
  b_overrides : gmap string string;
  b_meta : moduleMeta
}.

(** The merge into the global table followed by [installResolvers()]. *)
Definition runBlock (w : world) (b : block) : world * moduleMeta :=
  let globals := merge (b_globalKey b) (b_overrides b) (w_globals w) in
  let '(p, meta) := installResolvers (b_globalKey b) (w_process w) (b_meta b) in
  (mkWorld globals p, meta).

(** Several injected blocks run one after the other in one process. *)
Fixpoint runBlocks (w : world) (bs : list block) : world * list moduleMeta :=
  match bs with
  | [] => (w, [])
  | b :: rest =>
      let '(w, meta) := runBlock w b in
      let '(w, metas) := runBlocks w rest in
      (w, meta :: metas)
  end.

(** ** Resolution strategies as an ordered list *)

(** One resolution attempt of the chain. *)
Inductive attempt : Type :=
| TryUrl (candidateUrl : string)
| TryPath (candidatePath : string)
| TryResolve (parentUrl : option string).

Section Strategies.
Context `{Host}.
Variable specifier : string.

Definition runAttempt (a : attempt) (st : rstate) : bool * rstate :=
  match a with
  | TryUrl u => tryUrl u st
  | TryPath p => tryPath p st
  | TryResolve parent => attemptImportMetaResolve specifier parent st
  end.

(** Run the attempts in order and stop at the first that succeeds. *)
Fixpoint firstSuccess (l : list attempt) (st : rstate) : rstate :=
  match l with
  | [] => st
  | a :: rest =>
      let '(ok, st) := runAttempt a st in
      if ok then st else firstSuccess rest st
  end.

Definition directAttempts : list attempt :=
  if Js.startsWith "file://" specifier then [TryUrl specifier]
  else if isAbsolute specifier then [TryPath specifier]
  else [].

Definition relativeAttempts (entrypointAbsPaths : list string) : list attempt :=
  TryPath (resolvePath cwd specifier)
  :: map (fun entry => TryPath (resolvePath (dirname entry) specifier)) entrypointAbsPaths.

Definition resolverAttempts (entrypointAbsPaths : list string) : list attempt :=
  map (fun entry => TryResolve (Some (pathToFileURL entry))) entrypointAbsPaths
  ++ [TryResolve None].

Definition fallbackAttempts : list attempt :=
  if negb (isUrlOrAbsolute specifier) then [TryPath (resolvePath cwd specifier)] else [].

(** The order in which [setup] makes its attempts. *)
Definition strategies (entrypointAbsPaths : list string) : list attempt :=
  directAttempts
  ++ (if isRelative specifier then relativeAttempts entrypointAbsPaths else [])
  ++ resolverAttempts entrypointAbsPaths
  ++ fallbackAttempts.

(** The order as the specification words it: the host resolver is
    consulted for bare specifiers only. *)
Definition strategiesAsSpecified (entrypointAbsPaths : list string) : list attempt :=
  (if Js.startsWith "file://" specifier then [TryUrl specifier]
   else if isAbsolute specifier then [TryPath specifier]
   else if isRelative specifier then relativeAttempts entrypointAbsPaths
   else resolverAttempts entrypointAbsPaths)
  ++ fallbackAttempts.

End Strategies.

(** The paths whose existence was tested, and the errors raised, in a
    sequence of host calls. *)
Definition checkedPaths (tr : list event) : list string :=
  flat_map (fun ev => match ev with EvExists p _ => [p] | _ => [] end) tr.

Definition observedErrors (tr : list event) : list string :=
  flat_map (fun ev => match ev with
                      | EvToPath _ (Throw e) => [e]
                      | EvResolve _ (Throw e) => [e]
                      | _ => []
                      end) tr.

(** ** A concrete POSIX-like host, for evaluating the model *)

Module Posix.

(** Resolve [.] and [..] in a list of path segments ([acc] is reversed). *)
Fixpoint collapse (acc : list string) (segs : list string) : list string :=
  match segs with
  | [] => rev acc
  | seg :: rest =>
      if String.eqb seg "" || String.eqb seg "." then collapse acc rest
      else if String.eqb seg ".." then collapse (tl acc) rest
      else collapse (seg :: acc) rest
  end.

Definition normalizeAbs (p : string) : string :=
  "/" +:+ Js.join "/" (collapse [] (Js.splitChar "/" p)).

Definition normalize (p : string) : string :=
  if Js.startsWith "/" p then normalizeAbs p
  else if Js.truthy p then p else ".".

Definition resolvePath (base p : string) : string :=
  if Js.startsWith "/" p then normalizeAbs p else normalizeAbs (base +:+ "/" +:+ p).

Definition basename (p : string) : string := List.last (Js.splitChar "/" p) "".

Definition dirname (p : string) : string :=
  "/" +:+ Js.join "/" (removelast (collapse [] (Js.splitChar "/" p))).

Definition pathToFileURL (p : string) : string := "file://" +:+ p.

Definition fileURLToPath (u : string) : result string :=
  if Js.startsWith "file:///" u then Ok (Js.slice 7 u)
  else Throw "TypeError: The URL must be of scheme file".

(** A host with working directory [/proj], the given files, and the
    given behaviour of [import.meta.resolve]. *)
Definition host (files : list string)
    (resolver : string -> option string -> result string) : Host :=
  Build_Host "/proj" normalize resolvePath (Js.startsWith "/") basename dirname
             pathToFileURL fileURLToPath (fun p => Js.includes p files) resolver.

(** A resolver that finds nothing. *)
Definition noModule (specifier : string) (parent : option string) : result string :=
  Throw ("ResolveMessage: Cannot find module " +:+ specifier).

(** A run-time environment in [/app] whose file system is a list of
    existing paths and on which every [mkdirSync] and [writeFileSync]
    fails. *)
Definition readOnlyRuntime : Runtime :=
  {| runtimeDir := "/app";
     joinPath := fun base segs => normalizeAbs (base +:+ "/" +:+ Js.join "/" segs);
     urlPathname := fileURLToPath;
     base64Decode := fun d => d;
     fs := list string;
     existsSync := fun p s => Js.includes p s;
     mkdirSync := fun p s => (Throw "EACCES: permission denied, mkdir", s);
     writeFileSync := fun p d s => (Throw "EROFS: read-only file system, open", s) |}.

End Posix.

(** ** Predicates and concrete inputs used in the statements *)

(** The characters a relative path may hold: the segment class and [/]. *)
Definition pathChar (c : ascii) : bool := segmentChar c || Ascii.eqb c "/"%char.

Definition notSlash (c : ascii) : bool := negb (Ascii.eqb c "/"%char).

(** A project in [/proj] with one asset file and no resolvable module. *)
Definition logoHost : Host :=
  Posix.host ["/proj/assets/logo.png"] Posix.noModule.

(** [attempted] lists the paths whose existence was tested, without
    repetition, and [resolutionErrors] the errors that were raised. *)
Definition consistent (st : rstate) : Prop :=
  st_attempted st = checkedPaths (st_trace st)
  /\ st_resolutionErrors st = observedErrors (st_trace st)
  /\ NoDup (st_attempted st).

(** A string occurs in another one. *)
Definition occursIn (x s : string) : Prop := exists pre post, s = pre +:+ x +:+ post.

(** [l] is tried only while the asset is unresolved. *)
Definition andThen `{Host} (specifier : string) (l : list attempt) (st : rstate) : rstate :=
  if unresolved st then firstSuccess specifier l st else st.

(** A project whose asset is found by the module resolver only. *)
Definition vendorHost : Host :=
  Posix.host ["/vendor/logo.png"]
    (fun specifier parent =>
       match parent with
       | Some _ => Ok "file:///vendor/logo.png"
       | None => Throw "ResolveMessage: Cannot find module"
       end).

(** A table with one entry under the default global key. *)
Definition sampleGlobals : gmap string (gmap string string) :=
  {[ "__bundleAssets" := {[ "/proj/assets/logo.png" := "/dist/logo.png" ]} ]}.

(** A synchronous resolver that maps everything to the source file. *)
Definition nativeFound : syncResolver :=
  fun specifier options globals => (Ok "/proj/assets/logo.png", globals).

(** A synchronous resolver that throws after another block registered the
    specifier. *)
Definition nativeLate : syncResolver :=
  fun specifier options globals =>
    (Throw "ResolveMessage: Cannot find module",
     <["__bundleAssets" := {[ specifier := "/dist/late.txt" ]}]> globals).

(** An asynchronous resolver whose promise is rejected. *)
Definition nativeRejects : asyncResolver :=
  fun specifier options globals =>
    (Ok (VPromise (Rejected "ResolveMessage: Cannot find module")), globals).

(** Registration binds [v] to [value] unless [v] already had a value. *)
Definition bindsIfFree (before after : gmap string string) (v value : string) : Prop :=
  after !! v = Some (default value (before !! v)).

(** Two resolved assets that declare the same alias, and their manifest
    entries. *)
Definition firstShared : ManifestEntry :=
  manifestEntry ""
    (mkResolvedAsset "./a.txt" "/proj/a.txt" "file:///proj/a.txt" "a.txt" ["shared-alias"]).

Definition secondShared : ManifestEntry :=
  manifestEntry ""
    (mkResolvedAsset "./b.txt" "/proj/b.txt" "file:///proj/b.txt" "b.txt" ["shared-alias"]).

Definition wrapDepthOpt (slot : option fn) : nat :=
  match slot with
  | Some f => wrapDepth f
  | None => 0
  end.

(** The slot is empty or holds a function that carries the marker. *)
Definition markedOpt (slot : option fn) : bool :=
  match slot with
  | Some f => bundleAssetsPatched f
  | None => true
  end.

(** The table stored under [globalKey], empty when there is none. *)
Definition tableOf (globalKey : string) (globals : gmap string (gmap string string))
    : gmap string string :=
  default ∅ (globals !! globalKey).

(** A statement over the file system that completes normally from every
    state. *)
Definition neverThrows `{Runtime} {A} (m : M A) : Prop :=
  forall s, exists a s', m s = (Ok a, s').

(** A process in which nothing is patched yet. *)
Definition freshProcess : process := mkProcess false (Some (Native 0)) (Some (Native 1)).

(** Two builds that each bundle one asset under the same alias, as the
    blocks they inject. *)
Definition firstBlock : block :=
  mkBlock "__bundleAssets"
    (@copyOverrides logoHost Posix.readOnlyRuntime [firstShared])
    (mkModuleMeta (Some (Native 2)) true).

Definition secondBlock : block :=
  mkBlock "__bundleAssets"
    (@copyOverrides logoHost Posix.readOnlyRuntime [secondShared])
    (mkModuleMeta (Some (Native 3)) true).

(** ** Predicates used in the further properties *)


(** Every form under which [registerAll keys value] may write is bound in
    [o]. *)
Definition covered `{Host} `{Runtime} (keys : list string) (value : string)
    (o : gmap string string) : Prop :=
  forall key, In key (value :: pathToFileURL value :: keys) -> key <> "" ->
    forall v, v ∈ keyVariants key -> is_Some (o !! v).

(** The helper installed as [globalThis[helperName]] (default
    [getBundleAsset]); [None] is its [null]. *)
Definition getBundleAsset `{Host} (globalKey specifier : string)
    (globals : gmap string (gmap string string)) : option string :=
  match globals !! globalKey with
  | None => None
  | Some map =>
      match findOverride globalKey specifier globals with
      | Some direct => Some direct
      | None => map !! specifier
      end
  end.

(** A third build, which stores its table under a name of its own. *)
Definition otherKeyBlock : block :=
  mkBlock "__otherAssets"
    (@copyOverrides logoHost Posix.readOnlyRuntime [secondShared])
    (mkModuleMeta (Some (Native 3)) true).

(** A run-time environment whose file system is a map from file paths to
    their contents; directories are not recorded, [mkdirSync] succeeds and
    [writeFileSync] stores the data. *)
Definition memoryRuntime : Runtime :=
  {| runtimeDir := "/app";
     joinPath := fun base segs => Posix.normalizeAbs (base +:+ "/" +:+ Js.join "/" segs);
     urlPathname := Posix.fileURLToPath;
     base64Decode := fun d => d;
     fs := gmap string string;
     existsSync := fun p s => bool_decide (is_Some (s !! p));
     mkdirSync := fun p s => (Ok tt, s);
     writeFileSync := fun p d s => (Ok tt, <[p := d]> s) |}.

(** ** Plugin set-up: configuration and injection (build time) *)

(** [build.config.compile]: absent or [undefined], a boolean, or an
    options object whose [outfile] may be a string. *)
Inductive compileOption : Type :=
| CompileUnset
| CompileFlag (b : bool)
| CompileOptions (outfile : option string).

(** The fields of [build.config] that [setup] reads. *)
Record buildConfig : Type := mkBuildConfig {
  cfg_target : string;
  cfg_outdir : option string;
  cfg_compile : compileOption;
  cfg_entrypoints : list string
}.

(** [compileOutfile] *)
Definition compileOutfileOf (c : compileOption) : option string :=
  match c with
  | CompileOptions (Some outfile) => Some outfile
  | _ => None
  end.

(** [isCompile]: [compileConfig !== undefined && compileConfig !== false] *)
Definition isCompileOf (c : compileOption) : bool :=
  match c with
  | CompileUnset => false
  | CompileFlag b => b
  | CompileOptions _ => true
  end.

(** What [setup] derives from the configuration before it resolves any
    asset. *)
Record layout : Type := mkLayout {
  extractionDirAbs : option string;
  isCompile : bool;
  bundleOutputRoot : option string
}.

Definition browserError : string := "bundleAssetsPlugin does not support browser builds.".
Definition extractionDirError : string :=
  "bundleAssetsPlugin option `extractionDir` must be an absolute path.".
Definition outputRootError : string :=
  "bundleAssetsPlugin requires `outdir` or `outfile` when not using compile mode in order to emit bundled files.".
Definition noAssetsError : string :=
  "bundleAssetsPlugin requires at least one asset to bundle.".

Section SetupConfig.
Context `{Host}.

(** The checks at the start of [setup]. *)
Definition setupLayout (extractionDir : option string) (config : buildConfig) : result layout :=
  if String.eqb (cfg_target config) "browser" then Throw browserError
  else
    match (match extractionDir with
           | Some dir =>
               if negb (isAbsolute dir) then Throw extractionDirError
               else Ok (Some (resolvePath cwd dir))
           | None => Ok None
           end) with
    | Throw e => Throw e
    | Ok extractionDirAbs =>
        let compileOutfile := compileOutfileOf (cfg_compile config) in
        let isCompile := isCompileOf (cfg_compile config) in
        let bundleOutputRoot :=
          match cfg_outdir config with
          | Some outdir => Some outdir
          | None =>
              match compileOutfile with
              | Some outfile =>
                  if Js.truthy outfile then Some (dirname (resolvePath cwd outfile)) else None
              | None => None
              end
          end in
        if negb isCompile && negb (Js.truthyOpt bundleOutputRoot) then Throw outputRootError
        else Ok (mkLayout extractionDirAbs isCompile bundleOutputRoot)
    end.

(** [tempOutdir]: [mkdtemp] is called, and yields [tempDir], only in
    compile mode without an output root. *)
Definition tempOutdirOf (tempDir : string) (l : layout) : option string :=
  if negb (Js.truthyOpt (bundleOutputRoot l)) && isCompile l then Some tempDir else None.

(** [emissionRoot = bundleOutputRoot ?? tempOutdir ?? process.cwd()] *)
Definition emissionRootOf (tempDir : string) (l : layout) : string :=
  match bundleOutputRoot l with
  | Some root => root
  | None =>
      match tempOutdirOf tempDir l with
      | Some temp => temp
      | None => cwd
      end
  end.

(** [bundleAssetsPlugin(options)] up to the end of the asset loop of
    [setup]: the check on [assets], the configuration checks, then the
    resolution of every asset. *)
Definition setupAssets (assets : list AssetInput) (extractionDir : option string)
    (config : buildConfig) : result (layout * list ResolvedAsset) :=
  if Nat.eqb (length assets) 0 then Throw noAssetsError
  else
    match setupLayout extractionDir config with
    | Throw e => Throw e
    | Ok l =>
        match processAssets (entrypointAbsPathsOf (cfg_entrypoints config)) assets with
        | Throw e => Throw e
        | Ok resolved => Ok (l, resolved)
        end
    end.

(** The [onLoad] callback: [injected] is the set of entry points already
    given the block, [readText] stands for [Bun.file(p).text()];
    [None] is the callback's [undefined] (file left as it is). *)
Definition onLoad (injection : string) (readText : string -> string)
    (entrypointAbsPaths : list string) (injected : list string) (argsPath : string)
    : option string * list string :=
  let normalized := resolvePath cwd argsPath in
  if negb (Js.includes normalized entrypointAbsPaths) || Js.includes normalized injected
  then (None, injected)
  else (Some (injection +:+ newline +:+ readText argsPath), injected ++ [normalized]).

(** The callback over the files the build loads, in order. *)
Fixpoint onLoads (injection : string) (readText : string -> string)
    (entrypointAbsPaths : list string) (injected : list string) (paths : list string)
    : list (option string) :=
  match paths with
  | [] => []
  | p :: rest =>
      let '(r, injected) := onLoad injection readText entrypointAbsPaths injected p in
      r :: onLoads injection readText entrypointAbsPaths injected rest
  end.

End SetupConfig.

(** Number of calls of [import.meta.resolve] in a sequence of host calls. *)
Definition resolverCalls (tr : list event) : nat :=
  length (flat_map (fun ev => match ev with EvResolve _ _ => [tt] | _ => [] end) tr).

(** * Properties *)

(** ** Key normalizer *)

Lemma all_impl (p q : ascii -> bool) (s : string) :
  (forall c, p c = true -> q c = true) -> Js.all p s = true -> Js.all q s = true.
Proof.
  intros Hpq. induction s as [|c s IH]; simpl; [done|].
  intros [Hc Hs]%andb_true_iff. rewrite (Hpq _ Hc), (IH Hs). done.
Qed.

Lemma all_app (p : ascii -> bool) (s t : string) :
  Js.all p (s +:+ t) = Js.all p s && Js.all p t.
Proof.
  induction s as [|c s IH]; simpl; [done|]. rewrite IH, andb_assoc. done.
Qed.

Lemma segmentChar_notSlash c : segmentChar c = true -> notSlash c = true.
Proof.
  unfold notSlash. destruct (Ascii.eqb_spec c "/"%char) as [->|]; [|done].
  vm_compute. done.
Qed.

Lemma sanitizeSegment_all (value : string) :
  Js.all segmentChar (sanitizeSegment value) = true.
Proof.
  induction value as [|c s IH]; simpl; [done|].
  rewrite IH, andb_true_r. destruct (segmentChar c) eqn:E; [done|]. reflexivity.
Qed.

Lemma sanitizeSegment_fixed (value : string) :
  Js.all segmentChar value = true -> sanitizeSegment value = value.
Proof.
  induction value as [|c s IH]; simpl; [done|].
  intros [Hc Hs]%andb_true_iff. rewrite Hc, (IH Hs). done.
Qed.

Lemma join_all (p : ascii -> bool) (l : list string) :
  p "/"%char = true -> Forall (fun s => Js.all p s = true) l ->
  Js.all p (Js.join "/" l) = true.
Proof.
  intros Hsep. induction 1 as [|x l Hx Hl IH]; simpl; [done|].
  destruct l as [|y l]; [done|].
  change (Js.all p (x +:+ "/" +:+ Js.join "/" (y :: l)) = true).
  rewrite !all_app, Hx, IH. simpl. rewrite Hsep. done.
Qed.

Lemma splitChar_plain (s : string) :
  Js.all notSlash s = true -> Js.splitChar "/" s = [s].
Proof.
  induction s as [|c s IH]; simpl; [done|].
  intros [Hc Hs]%andb_true_iff. unfold notSlash in Hc.
  destruct (Ascii.eqb c "/") eqn:E; [done|]. rewrite (IH Hs). done.
Qed.

Lemma splitChar_app (s rest : string) :
  Js.all notSlash s = true ->
  Js.splitChar "/" (s +:+ String "/" rest) = s :: Js.splitChar "/" rest.
Proof.
  induction s as [|c s IH]; simpl; [done|].
  intros [Hc Hs]%andb_true_iff. unfold notSlash in Hc.
  destruct (Ascii.eqb c "/") eqn:E; [done|]. rewrite (IH Hs). done.
Qed.

Lemma splitChar_join (l : list string) :
  l <> [] -> Forall (fun s => Js.all notSlash s = true) l ->
  Js.splitChar "/" (Js.join "/" l) = l.
Proof.
  intros Hne Hall. induction Hall as [|x l Hx Hl IH]; [done|].
  destruct l as [|y l]; [by apply splitChar_plain|].
  change (Js.splitChar "/" (x +:+ String "/" (Js.join "/" (y :: l))) = x :: y :: l).
  rewrite splitChar_app by done. rewrite IH; done.
Qed.

Lemma normalizeTargetName_segments (value : string) :
  targetSegments value <> [] ->
  Js.splitChar "/" (normalizeTargetName value) = map sanitizeSegment (targetSegments value).
Proof.
  intros Hne. unfold normalizeTargetName.
  destruct (targetSegments value) as [|s l] eqn:E; [done|]. simpl Nat.eqb. cbv iota.
  apply splitChar_join; [done|].
  apply List.Forall_forall. intros x [y [<- _]]%in_map_iff.
  apply (all_impl segmentChar); [apply segmentChar_notSlash | apply sanitizeSegment_all].
Qed.

Lemma normalizeTargetName_all (value : string) :
  Js.all pathChar (normalizeTargetName value) = true.
Proof.
  unfold normalizeTargetName.
  destruct (Nat.eqb _ 0).
  - apply (all_impl segmentChar); [|apply sanitizeSegment_all].
    intros c Hc. unfold pathChar. by rewrite Hc.
  - apply join_all; [reflexivity|].
    apply List.Forall_forall. intros x [y [<- _]]%in_map_iff.
    apply (all_impl segmentChar); [|apply sanitizeSegment_all].
    intros c Hc. unfold pathChar. by rewrite Hc.
Qed.

Lemma relativePathOf_all base targetName sp spec :
  Js.all pathChar (relativePathOf base targetName sp spec) = true.
Proof.
  unfold relativePathOf. destruct targetName as [t|].
  - apply normalizeTargetName_all.
  - apply (all_impl segmentChar); [|apply sanitizeSegment_all].
    intros c Hc. unfold pathChar. by rewrite Hc.
Qed.

(** What a successful [processEntry] returns. *)
Lemma processEntry_Ok `{Host} eps entry asset :
  processEntry eps entry = Ok asset ->
  exists sp,
    st_sourcePath (resolveChain (entrySpecifier entry) eps) = Some sp
    /\ Js.truthy sp = true
    /\ specifier asset = entrySpecifier entry
    /\ sourcePath asset = sp
    /\ relativePath asset
       = relativePathOf basename (entryTargetName entry) sp (entrySpecifier entry)
    /\ runtimeKeys asset = entryRuntimeKeys entry.
Proof.
  unfold processEntry.
  destruct (st_sourcePath _) as [sp|] eqn:E; [|done].
  destruct (Js.truthy sp) eqn:T; [|done].
  intros [= <-]. exists sp. simpl. done.
Qed.

(** C1 (as amended): the relative path of every resolved asset is made of
    characters of [[A-Za-z0-9._-]] and [/] only; when [targetName] has a
    non-empty segment, the [/]-separated segments of the relative path are
    the non-empty segments of [targetName], each sanitized on its own, and
    a segment made of class characters only (such as [..]) is kept as it
    is. *)
Theorem relativePath_sanitized `{Host} (eps : list string) (entry : AssetInput)
    (asset : ResolvedAsset) :
  processEntry eps entry = Ok asset ->
  Js.all pathChar (relativePath asset) = true
  /\ (forall t, entryTargetName entry = Some t -> targetSegments t <> [] ->
        Js.splitChar "/" (relativePath asset) = map sanitizeSegment (targetSegments t))
  /\ (forall seg, Js.all segmentChar seg = true -> sanitizeSegment seg = seg).
Proof.
  intros (sp & _ & _ & _ & _ & Hrel & _)%processEntry_Ok.
  rewrite Hrel. split; [apply relativePathOf_all|]. split.
  - intros t -> Hne. simpl. by apply normalizeTargetName_segments.
  - apply sanitizeSegment_fixed.
Qed.

Lemma relativePath_sanitized_witness :
  exists asset,
    @processEntry logoHost ["/proj/src/main.ts"]
      (AssetObject "./assets/logo.png" (Some "static images\logo.png") None) = Ok asset
    /\ relativePath asset = "static-images/logo.png"
    /\ Js.all pathChar (relativePath asset) = true.
Proof.
  eexists. split; [reflexivity|]. split; [reflexivity|].
  apply (@relativePath_sanitized logoHost ["/proj/src/main.ts"]
           (AssetObject "./assets/logo.png" (Some "static images\logo.png") None)).
  reflexivity.
Defined.

(** C1 (as stated) fails: a [targetName] with [..] segments yields a
    relative path that keeps them. *)
Lemma relativePath_dotdot_counterexample :
  exists asset,
    @processEntry logoHost ["/proj/src/main.ts"]
      (AssetObject "./assets/logo.png" (Some "../../etc/passwd") None) = Ok asset
    /\ relativePath asset = "../../etc/passwd"
    /\ In ".." (Js.splitChar "/" (relativePath asset)).
Proof.
  eexists. split; [reflexivity|]. split; [reflexivity|]. simpl. auto.
Qed.

(** ** Specifier resolver: bookkeeping *)

Lemma checkedPaths_app tr1 tr2 :
  checkedPaths (tr1 ++ tr2) = checkedPaths tr1 ++ checkedPaths tr2.
Proof. unfold checkedPaths. apply flat_map_app. Qed.

Lemma observedErrors_app tr1 tr2 :
  observedErrors (tr1 ++ tr2) = observedErrors tr1 ++ observedErrors tr2.
Proof. unfold observedErrors. apply flat_map_app. Qed.

Lemma includes_false_not_in x l : Js.includes x l = false -> x ∉ l.
Proof.
  unfold Js.includes. intros Hf Hin.
  apply list_elem_of_In in Hin.
  assert (existsb (String.eqb x) l = true) as Ht; [|congruence].
  apply existsb_exists. exists x. split; [done|]. apply String.eqb_refl.
Qed.

Lemma consistent_initial : consistent initial.
Proof. repeat split; simpl; constructor. Qed.

Section ResolverBookkeeping.
Context `{Host}.
Variable spec : string.

Lemma tryPath_consistent p st :
  consistent st -> consistent (snd (tryPath p st)).
Proof.
  intros (Ha & He & Hn). unfold tryPath.
  destruct (Js.includes _ _) eqn:Hin; [done|].
  apply includes_false_not_in in Hin.
  assert (consistent (record (EvExists (normalize p) (fileExists (normalize p)))
                        (pushAttempted (normalize p) st))) as Hc.
  { repeat split; simpl.
    - rewrite checkedPaths_app, Ha. simpl. done.
    - rewrite observedErrors_app, He. simpl. by rewrite app_nil_r.
    - apply NoDup_app. repeat split; [done| |apply NoDup_singleton].
      intros x Hx ->%list_elem_of_singleton. done. }
  destruct (fileExists _); [|done].
  destruct Hc as (Ha' & He' & Hn'). repeat split; done.
Qed.

Lemma tryUrl_consistent u st :
  consistent st -> consistent (snd (tryUrl u st)).
Proof.
  intros Hc. unfold tryUrl, toFilePath.
  destruct (Js.startsWith "file://" u) eqn:Hu.
  - destruct (fileURLToPath u) as [filePath|err] eqn:Hp.
    + assert (consistent (record (EvToPath u (Ok filePath)) st)) as Hc'.
      { destruct Hc as (Ha & He & Hn). repeat split; simpl; [| |done].
        - rewrite checkedPaths_app, Ha. simpl. by rewrite app_nil_r.
        - rewrite observedErrors_app, He. simpl. by rewrite app_nil_r. }
      pose proof (tryPath_consistent filePath _ Hc') as Hc''.
      destruct (tryPath filePath _) as [matched st']. simpl in Hc''.
      destruct (st_sourcePath st') as [sp|]; [|done].
      destruct (matched && Js.truthy sp); [|done].
      destruct Hc'' as (Ha & He & Hn). repeat split; done.
    + destruct Hc as (Ha & He & Hn). repeat split; simpl; [| |done].
      * rewrite checkedPaths_app, Ha. simpl. by rewrite app_nil_r.
      * rewrite observedErrors_app, He. simpl. done.
  - pose proof (tryPath_consistent
                  (if isAbsolute u then u else resolvePath cwd u) _ Hc) as Hc''.
    destruct (tryPath _ st) as [matched st']. simpl in Hc''.
    destruct (st_sourcePath st') as [sp|]; [|done].
    destruct (matched && Js.truthy sp); [|done].
    destruct Hc'' as (Ha & He & Hn). repeat split; done.
Qed.

Lemma attemptImportMetaResolve_consistent parent st :
  consistent st -> consistent (snd (attemptImportMetaResolve spec parent st)).
Proof.
  intros (Ha & He & Hn). unfold attemptImportMetaResolve.
  destruct (metaResolve spec _) as [url|err].
  - apply tryUrl_consistent. repeat split; simpl; [| |done].
    + rewrite checkedPaths_app, Ha. simpl. by rewrite app_nil_r.
    + rewrite observedErrors_app, He. simpl. by rewrite app_nil_r.
  - repeat split; simpl; [| |done].
    + rewrite checkedPaths_app, Ha. simpl. by rewrite app_nil_r.
    + rewrite observedErrors_app, He. simpl. done.
Qed.

Lemma tryDirs_consistent dirs st :
  consistent st -> consistent (tryDirs spec dirs st).
Proof.
  revert st. induction dirs as [|d dirs IH]; intros st Hc; simpl; [done|].
  pose proof (tryPath_consistent (resolvePath d spec) st Hc) as Hc'.
  destruct (tryPath _ st) as [ok st']. simpl in Hc'.
  destruct ok; [done|]. by apply IH.
Qed.

Lemma tryParents_consistent parents st :
  consistent st -> consistent (tryParents spec parents st).
Proof.
  revert st. induction parents as [|p parents IH]; intros st Hc; simpl; [done|].
  pose proof (attemptImportMetaResolve_consistent (Some p) st Hc) as Hc'.
  destruct (attemptImportMetaResolve spec (Some p) st) as [ok st']. simpl in Hc'.
  destruct ok; [done|]. by apply IH.
Qed.

Lemma resolveChain_consistent eps : consistent (resolveChain spec eps).
Proof.
  unfold resolveChain.
  set (st1 := if Js.startsWith "file://" spec then _ else _).
  assert (consistent st1) as H1.
  { subst st1. destruct (Js.startsWith "file://" spec).
    - apply tryUrl_consistent, consistent_initial.
    - destruct (isAbsolute spec); [apply tryPath_consistent|]; apply consistent_initial. }
  clearbody st1.
  set (st2 := if unresolved st1 && isRelative spec then _ else _).
  assert (consistent st2) as H2.
  { subst st2. destruct (unresolved st1 && isRelative spec); [|done].
    pose proof (tryPath_consistent (resolvePath cwd spec) st1 H1) as Hc.
    destruct (unresolved _); [by apply tryDirs_consistent|done]. }
  clearbody st2.
  set (st3 := if unresolved st2 then _ else _).
  assert (consistent st3) as H3.
  { subst st3. destruct (unresolved st2); [by apply tryParents_consistent|done]. }
  clearbody st3.
  set (st4 := if unresolved st3 then _ else _).
  assert (consistent st4) as H4.
  { subst st4. destruct (unresolved st3);
      [by apply attemptImportMetaResolve_consistent|done]. }
  clearbody st4.
  destruct (unresolved st4 && negb (isUrlOrAbsolute spec)); [|done].
  by apply tryPath_consistent.
Qed.

End ResolverBookkeeping.

Lemma append_empty_r (s : string) : s +:+ "" = s.
Proof.
  induction s as [|c s IH]; [done|].
  change (String c (s +:+ "") = String c s). by rewrite IH.
Qed.

Lemma append_assoc (s t u : string) : (s +:+ t) +:+ u = s +:+ t +:+ u.
Proof.
  induction s as [|c s IH]; [done|].
  change (String c ((s +:+ t) +:+ u) = String c (s +:+ t +:+ u)). by rewrite IH.
Qed.

(** Every element of a joined list occurs in the result. *)
Lemma join_occurs (sep x : string) (l : list string) :
  In x l -> exists pre post, Js.join sep l = pre +:+ x +:+ post.
Proof.
  induction l as [|y l IH]; [done|]. intros [->|Hin].
  - exists "". destruct l as [|z l].
    + exists "". change (x = x +:+ ""). by rewrite append_empty_r.
    + by exists (sep +:+ Js.join sep (z :: l)).
  - destruct l as [|z l]; [done|].
    destruct (IH Hin) as (pre & post & E).
    exists (y +:+ sep +:+ pre), post.
    change (y +:+ sep +:+ Js.join sep (z :: l) = (y +:+ sep +:+ pre) +:+ x +:+ post).
    by rewrite E, !append_assoc.
Qed.

Lemma occursIn_append_l x s t : occursIn x s -> occursIn x (s +:+ t).
Proof.
  intros (pre & post & ->). exists pre, (post +:+ t). by rewrite !append_assoc.
Qed.

Lemma occursIn_append_r x s t : occursIn x t -> occursIn x (s +:+ t).
Proof.
  intros (pre & post & ->). exists (s +:+ pre), post. by rewrite !append_assoc.
Qed.

Lemma notFoundMessage_lists_path spec attempted errs p :
  In p attempted -> occursIn p (notFoundMessage spec attempted errs).
Proof.
  intros Hin. unfold notFoundMessage.
  destruct attempted as [|a l] eqn:E; [done|]. rewrite <- E in *. clear E.
  replace (Nat.ltb 0 (length attempted)) with true
    by (destruct attempted; [done|reflexivity]).
  do 5 apply occursIn_append_r. apply occursIn_append_l.
  do 2 apply occursIn_append_r. by apply join_occurs.
Qed.

Lemma notFoundMessage_lists_error spec attempted errs e :
  In e errs -> occursIn e (notFoundMessage spec attempted errs).
Proof.
  intros Hin. unfold notFoundMessage.
  replace (Nat.ltb 0 (length errs)) with true
    by (destruct errs; [done|reflexivity]).
  do 6 apply occursIn_append_r.
  do 2 apply occursIn_append_r. by apply join_occurs.
Qed.

(** C7: when no strategy finds the asset, the entry fails with the
    not-found message built from [attempted] and [resolutionErrors];
    [attempted] holds every path whose existence was tested, each once, and
    [resolutionErrors] every error raised by the host resolver or by the
    URL conversion; each of them occurs in the message. *)
Theorem notFound_diagnostics `{Host} (eps : list string) (entry : AssetInput) :
  let st := resolveChain (entrySpecifier entry) eps in
  unresolved st = true ->
  processEntry eps entry
    = Throw (notFoundMessage (entrySpecifier entry)
               (checkedPaths (st_trace st)) (observedErrors (st_trace st)))
  /\ NoDup (checkedPaths (st_trace st))
  /\ (forall p, In p (checkedPaths (st_trace st)) ->
        occursIn p (notFoundMessage (entrySpecifier entry)
                      (checkedPaths (st_trace st)) (observedErrors (st_trace st))))
  /\ (forall e, In e (observedErrors (st_trace st)) ->
        occursIn e (notFoundMessage (entrySpecifier entry)
                      (checkedPaths (st_trace st)) (observedErrors (st_trace st)))).
Proof.
  intros st Hun.
  destruct (resolveChain_consistent (entrySpecifier entry) eps) as (Ha & He & Hn).
  fold st in Ha, He, Hn. rewrite <- Ha, <- He.
  split; [|split; [done|split]].
  - unfold processEntry. fold st. unfold unresolved, Js.truthyOpt in Hun.
    destruct (st_sourcePath st) as [sp|]; [|done].
    destruct (Js.truthy sp); done.
  - intros p. apply notFoundMessage_lists_path.
  - intros e. apply notFoundMessage_lists_error.
Qed.

Lemma notFound_diagnostics_witness :
  @processEntry (Posix.host [] Posix.noModule) ["/proj/src/main.ts"]
    (AssetString "./assets/logo.png")
  = Throw (notFoundMessage "./assets/logo.png"
             ["/proj/assets/logo.png"; "/proj/src/assets/logo.png"]
             ["ResolveMessage: Cannot find module ./assets/logo.png";
              "ResolveMessage: Cannot find module ./assets/logo.png"]).
Proof.
  apply (@notFound_diagnostics (Posix.host [] Posix.noModule) ["/proj/src/main.ts"]
           (AssetString "./assets/logo.png")).
  reflexivity.
Defined.

(** ** Specifier resolver: order of the strategies *)

Lemma truthy_nonempty (s : string) : s <> "" -> Js.truthy s = true.
Proof. by destruct s. Qed.

Section ResolverOrder.
Context `{Host}.
Variable spec : string.
Hypothesis normalize_nonempty : forall p, normalize p <> "".

Lemma tryPath_outcome p st ok st' :
  unresolved st = true -> tryPath p st = (ok, st') -> unresolved st' = negb ok.
Proof using normalize_nonempty.
  intros Hun. unfold tryPath.
  destruct (Js.includes _ _); [by intros [= <- <-]|].
  destruct (fileExists _); intros [= <- <-].
  - unfold unresolved. simpl. by rewrite truthy_nonempty.
  - done.
Qed.

Lemma tryUrl_outcome u st ok st' :
  unresolved st = true -> tryUrl u st = (ok, st') -> unresolved st' = negb ok.
Proof using normalize_nonempty.
  intros Hun. unfold tryUrl.
  destruct (toFilePath u st) as [[filePath|err] st1] eqn:Hp.
  - assert (unresolved st1 = true) as Hun1.
    { unfold toFilePath in Hp. destruct (Js.startsWith "file://" u);
        injection Hp as _ <-; done. }
    destruct (tryPath filePath st1) as [matched st2] eqn:Ht.
    pose proof (tryPath_outcome _ _ _ _ Hun1 Ht) as Ho.
    destruct (st_sourcePath st2) as [sp|] eqn:Hsp; [|by intros [= <- <-]].
    destruct (matched && Js.truthy sp); intros [= <- <-]; [|done].
    unfold unresolved in *. simpl. exact Ho.
  - unfold toFilePath in Hp. destruct (Js.startsWith "file://" u); [|done].
    injection Hp as _ <-. by intros [= <- <-].
Qed.

Lemma attemptImportMetaResolve_outcome parent st ok st' :
  unresolved st = true ->
  attemptImportMetaResolve spec parent st = (ok, st') -> unresolved st' = negb ok.
Proof using normalize_nonempty.
  intros Hun. unfold attemptImportMetaResolve.
  destruct (metaResolve spec _) as [url|err].
  - by apply tryUrl_outcome.
  - by intros [= <- <-].
Qed.

Lemma runAttempt_outcome a st ok st' :
  unresolved st = true -> runAttempt spec a st = (ok, st') -> unresolved st' = negb ok.
Proof using normalize_nonempty.
  destruct a; simpl;
    [apply tryUrl_outcome | apply tryPath_outcome | apply attemptImportMetaResolve_outcome].
Qed.

Lemma firstSuccess_single a st :
  firstSuccess spec [a] st = snd (runAttempt spec a st).
Proof. simpl. destruct (runAttempt spec a st) as [[] st']; done. Qed.

Lemma firstSuccess_cons a l st :
  unresolved st = true ->
  firstSuccess spec (a :: l) st = andThen spec l (snd (runAttempt spec a st)).
Proof using normalize_nonempty.
  intros Hun. simpl.
  destruct (runAttempt spec a st) as [ok st'] eqn:E.
  unfold andThen. simpl snd.
  rewrite (runAttempt_outcome _ _ _ _ Hun E). by destruct ok.
Qed.

Lemma andThen_app l1 l2 st :
  andThen spec (l1 ++ l2) st = andThen spec l2 (andThen spec l1 st).
Proof using normalize_nonempty.
  unfold andThen at 1 3. destruct (unresolved st) eqn:Hun.
  - revert st Hun. induction l1 as [|a l1 IH]; intros st Hun.
    + simpl. unfold andThen. by rewrite Hun.
    + simpl. destruct (runAttempt spec a st) as [ok st'] eqn:E.
      pose proof (runAttempt_outcome _ _ _ _ Hun E) as Ho.
      destruct ok; simpl in Ho.
      * unfold andThen. by rewrite Ho.
      * by apply IH.
  - unfold andThen. by rewrite Hun.
Qed.

Lemma tryDirs_firstSuccess dirs st :
  tryDirs spec dirs st
  = firstSuccess spec (map (fun dir => TryPath (resolvePath dir spec)) dirs) st.
Proof.
  revert st. induction dirs as [|d dirs IH]; intros st; simpl; [done|].
  destruct (tryPath _ st) as [[] st']; [done|apply IH].
Qed.

Lemma tryParents_firstSuccess parents st :
  tryParents spec parents st
  = firstSuccess spec (map (fun parentUrl => TryResolve (Some parentUrl)) parents) st.
Proof.
  revert st. induction parents as [|p parents IH]; intros st; simpl; [done|].
  destruct (attemptImportMetaResolve spec (Some p) st) as [[] st']; [done|apply IH].
Qed.

Lemma resolveChain_andThen eps :
  resolveChain spec eps
  = andThen spec (fallbackAttempts spec)
      (andThen spec [TryResolve None]
         (andThen spec (map (fun entry => TryResolve (Some (pathToFileURL entry))) eps)
            (andThen spec (if isRelative spec then relativeAttempts spec eps else [])
               (andThen spec (directAttempts spec) initial)))).
Proof using normalize_nonempty.
  unfold resolveChain.
  set (st1 := if Js.startsWith "file://" spec then _ else _).
  assert (st1 = andThen spec (directAttempts spec) initial) as <-.
  { subst st1. unfold andThen, directAttempts. change (unresolved initial) with true.
    cbv iota. destruct (Js.startsWith "file://" spec).
    - by rewrite firstSuccess_single.
    - destruct (isAbsolute spec); [by rewrite firstSuccess_single|done]. }
  clearbody st1.
  set (st2 := if unresolved st1 && isRelative spec then _ else _).
  assert (st2 = andThen spec (if isRelative spec then relativeAttempts spec eps else []) st1)
    as <-.
  { subst st2. unfold andThen. destruct (unresolved st1) eqn:Hun; [|done].
    simpl andb. destruct (isRelative spec); [|done].
    unfold relativeAttempts. rewrite firstSuccess_cons by done.
    unfold andThen. simpl runAttempt.
    destruct (unresolved _); [|done].
    rewrite tryDirs_firstSuccess. by rewrite map_map. }
  clearbody st2.
  set (st3 := if unresolved st2 then _ else _).
  assert (st3 = andThen spec
                  (map (fun entry => TryResolve (Some (pathToFileURL entry))) eps) st2) as <-.
  { subst st3. unfold andThen. destruct (unresolved st2); [|done].
    rewrite tryParents_firstSuccess. by rewrite map_map. }
  clearbody st3.
  set (st4 := if unresolved st3 then _ else _).
  assert (st4 = andThen spec [TryResolve None] st3) as <-.
  { subst st4. unfold andThen. destruct (unresolved st3); [|done].
    by rewrite firstSuccess_single. }
  clearbody st4.
  unfold andThen, fallbackAttempts.
  destruct (unresolved st4); [|done]. simpl andb.
  destruct (negb (isUrlOrAbsolute spec)); [|done].
  by rewrite firstSuccess_single.
Qed.

(** C2 (as amended): the chain makes its attempts in the order of
    [strategies] and stops at the first that succeeds: the specifier as
    a [file://] URL, else as an absolute path; for a [./] or [../]
    specifier the working directory and then each entry point's
    directory; then, for every specifier still unresolved, the host
    resolver with each entry point as parent and once without parent;
    last, unless the specifier is a URL or an absolute path, the working
    directory. *)
Theorem resolveChain_order (eps : list string) :
  resolveChain spec eps = firstSuccess spec (strategies spec eps) initial.
Proof using normalize_nonempty.
  rewrite resolveChain_andThen, <- !andThen_app.
  unfold andThen. change (unresolved initial) with true. cbv iota.
  unfold strategies, resolverAttempts. by rewrite <- !app_assoc.
Qed.

End ResolverOrder.

Lemma posix_normalize_nonempty (p : string) : Posix.normalize p <> "".
Proof.
  unfold Posix.normalize. destruct (Js.startsWith "/" p); [done|].
  by destruct p.
Qed.

Lemma resolveChain_order_witness :
  @resolveChain vendorHost "./logo.png" ["/proj/src/main.ts"]
  = @firstSuccess vendorHost "./logo.png"
      [TryPath "/proj/logo.png"; TryPath "/proj/src/logo.png";
       TryResolve (Some "file:///proj/src/main.ts"); TryResolve None;
       TryPath "/proj/logo.png"] initial.
Proof.
  apply (@resolveChain_order vendorHost "./logo.png" posix_normalize_nonempty
           ["/proj/src/main.ts"]).
Defined.

(** C2 (as stated) fails: for a [./] specifier that is in neither the
    working directory nor an entry point's directory, the chain goes on to
    the host resolver and succeeds, where the order as specified stops
    without a result. *)
Lemma resolveChain_relative_counterexample :
  st_sourcePath (@resolveChain vendorHost "./logo.png" ["/proj/src/main.ts"])
    = Some "/vendor/logo.png"
  /\ In (EvResolve (Some "file:///proj/src/main.ts") (Ok "file:///vendor/logo.png"))
        (st_trace (@resolveChain vendorHost "./logo.png" ["/proj/src/main.ts"]))
  /\ st_sourcePath
       (@firstSuccess vendorHost "./logo.png"
          (@strategiesAsSpecified vendorHost "./logo.png" ["/proj/src/main.ts"]) initial)
     = None.
Proof.
  split; [reflexivity|]. split; [|reflexivity].
  vm_compute. auto.
Qed.

(** ** Patched resolvers *)

(** C3: each of the three patched entry points ([patched] for
    [Bun.resolveSync], [patchedAsync] for [Bun.resolve],
    [patchedMetaResolve] for [import.meta.resolve])
    - returns the override of the specifier when the table has one, whatever
      the original resolver is and without touching the tables (the
      original is not called);
    - otherwise calls the original; when it yields [res] (directly or as a
      fulfilled promise) and the specifier is still not in the table, the
      result is the override of [res] if there is one, else [res];
    - when the original throws (or its promise is rejected), the table is
      looked up once more for the specifier: the override is the result if
      there is one, else the original failure is passed on. *)
Theorem patched_resolvers_contract `{Host} (globalKey specifier : string)
    (options : option string) (globals : gmap string (gmap string string)) :
  (forall direct, findOverride globalKey specifier globals = Some direct ->
     (forall original, patched globalKey original specifier options globals
                       = (Ok direct, globals))
     /\ (forall original, patchedAsync globalKey original specifier options globals
                          = (Ok (VPromise (Fulfilled direct)), globals))
     /\ (forall original, patchedMetaResolve globalKey original specifier options globals
                          = (Ok (VString direct), globals)))
  /\ (findOverride globalKey specifier globals = None ->
      forall res globals', findOverride globalKey specifier globals' = None ->
        let out := match findOverride globalKey res globals' with
                   | Some byResolved => byResolved
                   | None => res
                   end in
        (forall original, original specifier options globals = (Ok res, globals') ->
           patched globalKey original specifier options globals = (Ok out, globals'))
        /\ (forall original, original specifier options globals = (Ok (VString res), globals') ->
              patchedAsync globalKey original specifier options globals
                = (Ok (VString out), globals')
              /\ patchedMetaResolve globalKey original specifier options globals
                = (Ok (VString out), globals'))
        /\ (forall original,
              original specifier options globals = (Ok (VPromise (Fulfilled res)), globals') ->
              patchedAsync globalKey original specifier options globals
                = (Ok (VPromise (Fulfilled out)), globals')
              /\ patchedMetaResolve globalKey original specifier options globals
                = (Ok (VPromise (Fulfilled out)), globals')))
  /\ (findOverride globalKey specifier globals = None ->
      forall err globals',
        let again := findOverride globalKey specifier globals' in
        (forall original, original specifier options globals = (Throw err, globals') ->
           patched globalKey original specifier options globals
           = (match again with Some fallback => Ok fallback | None => Throw err end, globals'))
        /\ (forall original, original specifier options globals = (Throw err, globals') ->
              patchedAsync globalKey original specifier options globals
              = (match again with
                 | Some fallback => Ok (VString fallback)
                 | None => Throw err
                 end, globals')
              /\ patchedMetaResolve globalKey original specifier options globals
              = (match again with
                 | Some fallback => Ok (VString fallback)
                 | None => Throw err
                 end, globals'))
        /\ (forall original,
              original specifier options globals = (Ok (VPromise (Rejected err)), globals') ->
              let settledAs := match again with
                               | Some fallback => Fulfilled fallback
                               | None => Rejected err
                               end in
              patchedAsync globalKey original specifier options globals
                = (Ok (VPromise settledAs), globals')
              /\ patchedMetaResolve globalKey original specifier options globals
                = (Ok (VPromise settledAs), globals'))).
Proof.
  split; [|split].
  - intros direct Hd. unfold patched, patchedAsync, patchedMetaResolve.
    rewrite Hd. done.
  - intros Hmiss res globals' Hstill out.
    unfold patched, patchedAsync, patchedMetaResolve, thenCatch, applyOverride.
    rewrite Hmiss.
    split; [|split]; intros original ->; rewrite Hstill; done.
  - intros Hmiss err globals' again.
    unfold patched, patchedAsync, patchedMetaResolve, thenCatch.
    rewrite Hmiss.
    split; [|split]; intros original ->; subst again;
      destruct (findOverride globalKey specifier globals'); done.
Qed.

Lemma patched_resolvers_contract_witness :
  @patched logoHost "__bundleAssets" nativeLate "/proj/assets/logo.png" None sampleGlobals
    = (Ok "/dist/logo.png", sampleGlobals)
  /\ @patched logoHost "__bundleAssets" nativeFound "pkg/logo" None sampleGlobals
    = (Ok "/dist/logo.png", sampleGlobals)
  /\ @patched logoHost "__bundleAssets" nativeLate "pkg/logo" None sampleGlobals
    = (Ok "/dist/late.txt",
       <["__bundleAssets" := {[ "pkg/logo" := "/dist/late.txt" ]}]> sampleGlobals)
  /\ @patchedAsync logoHost "__bundleAssets" nativeRejects "pkg/logo" None sampleGlobals
    = (Ok (VPromise (Rejected "ResolveMessage: Cannot find module")), sampleGlobals).
Proof.
  pose proof (@patched_resolvers_contract logoHost "__bundleAssets"
                "/proj/assets/logo.png" None sampleGlobals) as (Hhit & _ & _).
  pose proof (@patched_resolvers_contract logoHost "__bundleAssets"
                "pkg/logo" None sampleGlobals) as (_ & Hmiss & Hraise).
  destruct (Hhit "/dist/logo.png" eq_refl) as (Hdirect & _ & _).
  destruct (Hmiss eq_refl "/proj/assets/logo.png" sampleGlobals eq_refl) as (Hyield & _ & _).
  destruct (Hraise eq_refl "ResolveMessage: Cannot find module"
              (<["__bundleAssets" := {[ "pkg/logo" := "/dist/late.txt" ]}]> sampleGlobals))
    as (Hlate & _ & _).
  destruct (Hraise eq_refl "ResolveMessage: Cannot find module" sampleGlobals)
    as (_ & _ & Hrejected).
  split; [|split; [|split]].
  - exact (Hdirect nativeLate).
  - exact (Hyield nativeFound eq_refl).
  - exact (Hlate nativeLate eq_refl).
  - exact (proj1 (Hrejected nativeRejects eq_refl)).
Defined.

(** ** Override table construction *)

Lemma truthy_true_iff (s : string) : Js.truthy s = true <-> s <> "".
Proof. destruct s; simpl; split; done. Qed.

Lemma includes_true_iff x l : Js.includes x l = true <-> x ∈ l.
Proof.
  unfold Js.includes. split.
  - intros (y & Hy & ->%String.eqb_eq)%existsb_exists. by apply list_elem_of_In.
  - intros Hx%list_elem_of_In. apply existsb_exists.
    exists x. split; [done|apply String.eqb_refl].
Qed.

Lemma addVariant_elem v c vs :
  v ∈ addVariant c vs <-> v ∈ vs \/ (v = c /\ c <> "").
Proof.
  unfold addVariant. destruct (Js.truthy c) eqn:Hc.
  - apply truthy_true_iff in Hc. destruct (Js.includes c vs) eqn:Hin.
    + apply includes_true_iff in Hin. split; [auto|]. intros [|[-> _]]; done.
    + rewrite elem_of_app, list_elem_of_singleton. split; intros [|]; auto.
      destruct H; auto.
  - split; [auto|]. intros [|[_ Hne]]; [done|].
    apply truthy_true_iff in Hne. congruence.
Qed.

Lemma setIfAbsent_lookup value (o : gmap string string) v k :
  setIfAbsent value o v !! k
  = match o !! k with
    | Some old => Some old
    | None => if decide (k = v) then Some value else None
    end.
Proof.
  unfold setIfAbsent, hasOwn. destruct (o !! v) as [x|] eqn:Hv.
  - destruct (o !! k) eqn:Hk; [done|]. case_decide; [congruence|done].
  - rewrite lookup_insert. case_decide as E.
    + subst k. rewrite Hv. by rewrite decide_True.
    + destruct (o !! k); [done|]. by rewrite decide_False.
Qed.

Lemma foldl_setIfAbsent_lookup value vs (o : gmap string string) k :
  foldl (setIfAbsent value) o vs !! k
  = match o !! k with
    | Some old => Some old
    | None => if decide (k ∈ vs) then Some value else None
    end.
Proof.
  revert o. induction vs as [|v vs IH]; intros o; cbn [foldl].
  - destruct (o !! k); [done|]. by rewrite decide_False by apply not_elem_of_nil.
  - rewrite IH, setIfAbsent_lookup. destruct (o !! k); [done|].
    destruct (decide (k = v)) as [->|Hne].
    + by rewrite decide_True by apply list_elem_of_here.
    + destruct (decide (k ∈ vs)) as [Hin|Hnin].
      * by rewrite decide_True by (by apply list_elem_of_further).
      * rewrite decide_False; [done|]. by intros [|]%elem_of_cons.
Qed.

Lemma setAddAll_In x l seen :
  In x (Js.setAddAll seen l) <-> In x seen \/ In x l.
Proof.
  revert seen. induction l as [|y l IH]; intros seen; simpl.
  - split; [auto|]. by intros [|[]].
  - destruct (Js.includes y seen) eqn:Hy; rewrite IH.
    + apply includes_true_iff, list_elem_of_In in Hy.
      split; [intros [|]; auto|]. intros [|[<-|]]; auto.
    + rewrite in_app_iff. simpl. split.
      * intros [[|[|[]]]|]; auto.
      * intros [|[|]]; auto.
Qed.

(** Every non-empty runtime key of an asset is a key of its manifest
    entry. *)
Lemma manifestKeys_runtimeKey (asset : ResolvedAsset) (k : string) :
  In k (runtimeKeys asset) -> k <> "" -> In k (manifestKeys asset).
Proof.
  intros Hin Hne. unfold manifestKeys, Js.arrayFromSet.
  apply setAddAll_In. right. apply list_elem_of_In, list_elem_of_filter.
  split; [by rewrite (proj2 (truthy_true_iff k) Hne)|].
  apply elem_of_app. left. by apply list_elem_of_In.
Qed.

Section RegistrationFacts.
Context `{Host} `{Runtime}.

Lemma registerKey_lookup key value (o : gmap string string) k :
  key <> "" ->
  registerKey key value o !! k
  = match o !! k with
    | Some old => Some old
    | None => if decide (k ∈ keyVariants key) then Some value else None
    end.
Proof.
  intros Hk%truthy_true_iff. unfold registerKey. rewrite Hk. simpl.
  apply foldl_setIfAbsent_lookup.
Qed.

(** An entry of the table is never overwritten. *)
Lemma registerKey_preserves key value (o : gmap string string) k old :
  o !! k = Some old -> registerKey key value o !! k = Some old.
Proof.
  intros Hk. unfold registerKey. destruct (negb (Js.truthy key)); [done|].
  by rewrite foldl_setIfAbsent_lookup, Hk.
Qed.

(** A registration leaves a key alone or binds a free key to [value]. *)
Lemma registerKey_cases key value (o : gmap string string) k :
  registerKey key value o !! k = o !! k
  \/ (o !! k = None /\ registerKey key value o !! k = Some value).
Proof.
  unfold registerKey. destruct (negb (Js.truthy key)); [by left|].
  rewrite foldl_setIfAbsent_lookup. destruct (o !! k); [by left|].
  case_decide; [by right|by left].
Qed.

Lemma key_in_keyVariants key : key ∈ keyVariants key.
Proof.
  unfold keyVariants.
  repeat match goal with
         | |- context [if ?b then _ else _] => destruct b
         | |- context [match ?r with Ok _ => _ | Throw _ => _ end] => destruct r
         | |- _ ∈ addVariant _ _ => apply addVariant_elem; left
         end; apply list_elem_of_here.
Qed.

Lemma registerKey_self key value (o : gmap string string) :
  key <> "" -> o !! key = None -> registerKey key value o !! key = Some value.
Proof.
  intros Hne Hfree. rewrite registerKey_lookup, Hfree by done.
  by rewrite decide_True by apply key_in_keyVariants.
Qed.

Lemma foldl_registerKey_preserves keys value (o : gmap string string) k old :
  o !! k = Some old ->
  foldl (fun o key => registerKey key value o) o keys !! k = Some old.
Proof.
  revert o. induction keys as [|key keys IH]; intros o Hk; simpl; [done|].
  by apply IH, registerKey_preserves.
Qed.

Lemma foldl_registerKey_cases keys value (o : gmap string string) k :
  foldl (fun o key => registerKey key value o) o keys !! k = o !! k
  \/ (o !! k = None
      /\ foldl (fun o key => registerKey key value o) o keys !! k = Some value).
Proof.
  revert o. induction keys as [|key keys IH]; intros o; simpl; [by left|].
  destruct (registerKey_cases key value o k) as [E|[Hfree E]].
  - destruct (IH (registerKey key value o)) as [E'|[Hfree' E']].
    + left. congruence.
    + right. split; congruence.
  - right. split; [done|]. by apply foldl_registerKey_preserves.
Qed.

Lemma foldl_registerKey_member keys value (o : gmap string string) k :
  In k keys -> k <> "" -> o !! k = None ->
  foldl (fun o key => registerKey key value o) o keys !! k = Some value.
Proof.
  revert o. induction keys as [|key keys IH]; intros o Hin Hne Hfree; [done|].
  simpl. destruct Hin as [->|Hin].
  - apply foldl_registerKey_preserves. by apply registerKey_self.
  - destruct (registerKey_cases key value o k) as [E|[_ E]].
    + apply IH; [done..|congruence].
    + by apply foldl_registerKey_preserves.
Qed.

Lemma registerAll_preserves keys value (o : gmap string string) k old :
  o !! k = Some old -> registerAll keys value o !! k = Some old.
Proof.
  intros Hk. unfold registerAll.
  by apply foldl_registerKey_preserves, registerKey_preserves, registerKey_preserves.
Qed.

Lemma registerAll_member keys value (o : gmap string string) k :
  In k keys -> k <> "" -> o !! k = None ->
  registerAll keys value o !! k = Some value.
Proof.
  intros Hin Hne Hfree. unfold registerAll.
  destruct (registerKey_cases value value o k) as [E1|[_ E1]].
  - destruct (registerKey_cases (pathToFileURL value) value
                (registerKey value value o) k) as [E2|[_ E2]].
    + apply foldl_registerKey_member; [done..|congruence].
    + by apply foldl_registerKey_preserves.
  - by apply foldl_registerKey_preserves, registerKey_preserves.
Qed.

Lemma registerEntries_preserves out entries (o : gmap string string) k old :
  o !! k = Some old -> registerEntries out entries o !! k = Some old.
Proof.
  unfold registerEntries. revert o.
  induction entries as [|a entries IH]; intros o Hk; simpl; [done|].
  by apply IH, registerAll_preserves.
Qed.

Lemma registerEntries_app out l1 l2 (o : gmap string string) :
  registerEntries out (l1 ++ l2) o = registerEntries out l2 (registerEntries out l1 o).
Proof. unfold registerEntries. apply foldl_app. Qed.

(** C4: first write wins.  Let [k] be a lookup key of [asset] (one of its
    [runtimeKeys], or any other key of its manifest entry), and let
    [asset] be the first entry whose registration reaches [k] (no entry
    before it registered [k]).  Then the finished table maps [k] to the
    output path of [asset], whatever the later entries declare: their
    registrations of [k] change nothing. *)
Theorem first_write_wins (out : ManifestEntry -> string) (data : string)
    (before after : list ManifestEntry) (asset : ResolvedAsset) (k : string) :
  In k (runtimeKeys asset) \/ In k (manifestKeys asset) -> k <> "" ->
  registerEntries out before ∅ !! k = None ->
  registerEntries out (before ++ manifestEntry data asset :: after) ∅ !! k
    = Some (out (manifestEntry data asset)).
Proof.
  intros Hin Hne Hfree.
  assert (In k (m_keys (manifestEntry data asset))) as Hkey.
  { destruct Hin as [Hin|Hin]; [by apply manifestKeys_runtimeKey|done]. }
  rewrite registerEntries_app.
  change (manifestEntry data asset :: after) with ([manifestEntry data asset] ++ after).
  rewrite registerEntries_app. apply registerEntries_preserves.
  unfold registerEntries. simpl foldl. by apply registerAll_member.
Qed.

End RegistrationFacts.

Lemma first_write_wins_witness :
  @registerEntries logoHost Posix.readOnlyRuntime
    (@copyOutputPath logoHost Posix.readOnlyRuntime) [firstShared; secondShared] ∅
    !! "shared-alias" = Some "/app/a.txt".
Proof.
  apply (@first_write_wins logoHost Posix.readOnlyRuntime
           (@copyOutputPath logoHost Posix.readOnlyRuntime) ""
           [] [secondShared]
           (mkResolvedAsset "./a.txt" "/proj/a.txt" "file:///proj/a.txt" "a.txt"
              ["shared-alias"])
           "shared-alias").
  - left. simpl. auto.
  - done.
  - reflexivity.
Defined.

Lemma startsWith_head (a b : ascii) (p q key : string) :
  a <> b -> Js.startsWith (String a p) key = true -> Js.startsWith (String b q) key = false.
Proof.
  intros Hne. unfold Js.startsWith. destruct key as [|c key]; [done|]. simpl.
  destruct (Ascii.ascii_dec a c) as [->|]; [|done].
  destruct (Ascii.ascii_dec b c) as [->|]; done.
Qed.

(** Find a candidate among the nested [addVariant] calls. *)
Ltac pick_variant :=
  apply addVariant_elem; first [by right | left; pick_variant].

Section VariantFacts.
Context `{Host} `{Runtime}.

Lemma bindsIfFree_variant key value (o : gmap string string) v :
  key <> "" -> v ∈ keyVariants key -> bindsIfFree o (registerKey key value o) v value.
Proof.
  intros Hne Hin. unfold bindsIfFree. rewrite registerKey_lookup by done.
  destruct (o !! v); [done|]. by rewrite decide_True.
Qed.

(** C9: [registerKey key value] registers, next to [key] itself, the
    equivalent forms of [key], all bound to [value] unless already bound
    (first write wins): the file-system path of a [file://] key; the
    [file://] form of a [/$bunfs/root/] key; the [file://] URL of any
    other absolute path; for a [./] or [../] key the path resolved
    against the run-time directory and its URL, and for a [./] key the
    two [$bunfs] forms.  A form that is the empty string is not
    registered. *)
Theorem registerKey_variants (key value : string) (o : gmap string string) :
  key <> "" ->
  let o' := registerKey key value o in
  bindsIfFree o o' key value
  /\ (Js.startsWith "file://" key = true ->
      forall p, fileURLToPath key = Ok p -> p <> "" -> bindsIfFree o o' p value)
  /\ (Js.startsWith "/$bunfs/root/" key = true ->
      bindsIfFree o o' ("file://" +:+ key) value)
  /\ (isAbsolute key = true -> Js.startsWith "file://" key = false ->
      Js.startsWith "/$bunfs/root/" key = false -> pathToFileURL key <> "" ->
      bindsIfFree o o' (pathToFileURL key) value)
  /\ (Js.startsWith "./" key = true \/ Js.startsWith "../" key = true ->
      isAbsolute key = false ->
      let absoluteFromRuntime := resolvePath runtimeDir key in
      (absoluteFromRuntime <> "" -> bindsIfFree o o' absoluteFromRuntime value)
      /\ (pathToFileURL absoluteFromRuntime <> "" ->
          bindsIfFree o o' (pathToFileURL absoluteFromRuntime) value)
      /\ (Js.startsWith "./" key = true ->
          bindsIfFree o o' ("/$bunfs/root/" +:+ Js.slice 2 key) value
          /\ bindsIfFree o o' ("file:///$bunfs/root/" +:+ Js.slice 2 key) value)).
Proof.
  intros Hne o'. subst o'.
  split; [by apply bindsIfFree_variant, key_in_keyVariants|].
  split; [|split; [|split]].
  - intros Hurl p Hp Hpne. apply bindsIfFree_variant; [done|].
    unfold keyVariants. rewrite Hurl, Hp. apply addVariant_elem. by right.
  - intros Hb. apply bindsIfFree_variant; [done|].
    unfold keyVariants. rewrite Hb.
    assert (Js.startsWith "file://" key = false) as ->
      by (eapply startsWith_head; [|exact Hb]; done).
    apply addVariant_elem. by right.
  - intros Habs Hurl Hb Hune. apply bindsIfFree_variant; [done|].
    unfold keyVariants. rewrite Hurl, Hb, Habs. apply addVariant_elem. by right.
  - intros Hrel Habs absoluteFromRuntime.
    assert (Js.startsWith "file://" key = false) as Hurl.
    { destruct Hrel as [Hr|Hr]; (eapply startsWith_head; [|exact Hr]; done). }
    assert (Js.startsWith "/$bunfs/root/" key = false) as Hb.
    { destruct Hrel as [Hr|Hr]; (eapply startsWith_head; [|exact Hr]; done). }
    assert (Js.startsWith "./" key || Js.startsWith "../" key = true) as Hor.
    { destruct Hrel as [->| ->]; [done|apply orb_true_r]. }
    split; [|split].
    + intros Hane. apply bindsIfFree_variant; [done|].
      unfold keyVariants. rewrite Hurl, Hb, Habs, Hor.
      destruct (Js.startsWith "./" key); pick_variant.
    + intros Hune. apply bindsIfFree_variant; [done|].
      unfold keyVariants. rewrite Hurl, Hb, Habs, Hor.
      destruct (Js.startsWith "./" key); pick_variant.
    + intros Hdot. split; (apply bindsIfFree_variant; [done|]);
        unfold keyVariants; rewrite Hurl, Hb, Habs, Hor, Hdot.
      * pick_variant.
      * pick_variant.
Qed.

End VariantFacts.

Lemma registerKey_variants_witness :
  let o' := @registerKey logoHost Posix.readOnlyRuntime "./assets/logo.png" "/app/logo.png"
              {[ "/app/assets/logo.png" := "/app/first.png" ]} in
  o' !! "./assets/logo.png" = Some "/app/logo.png"
  /\ o' !! "/app/assets/logo.png" = Some "/app/first.png"
  /\ o' !! "file:///app/assets/logo.png" = Some "/app/logo.png"
  /\ o' !! "/$bunfs/root/assets/logo.png" = Some "/app/logo.png"
  /\ o' !! "file:///$bunfs/root/assets/logo.png" = Some "/app/logo.png".
Proof.
  intros o'.
  destruct (@registerKey_variants logoHost Posix.readOnlyRuntime
              "./assets/logo.png" "/app/logo.png"
              {[ "/app/assets/logo.png" := "/app/first.png" ]})
    as (Hkey & _ & _ & _ & Hrel); [done|].
  destruct (Hrel (or_introl eq_refl) eq_refl) as (Habs & Hurl & Hbunfs).
  destruct (Hbunfs eq_refl) as (Hb1 & Hb2).
  split; [exact Hkey|]. split; [by apply Habs|]. split; [by apply Hurl|].
  split; [exact Hb1|exact Hb2].
Defined.

(** ** Merge into the process-global table *)

Lemma merge_fold_lookup (target overrides : gmap string string) k :
  map_fold (fun key value tgt => <[key := value]> tgt) target overrides !! k
  = match overrides !! k with
    | Some new => Some new
    | None => target !! k
    end.
Proof.
  revert k.
  apply (map_fold_weak_ind
           (fun r m => forall k, r !! k = match m !! k with
                                          | Some new => Some new
                                          | None => target !! k
                                          end)).
  - intros k. by rewrite lookup_empty.
  - intros i x m r Hi IH k. rewrite !lookup_insert. case_decide; [done|apply IH].
Qed.

Lemma tableOf_merge globalKey overrides globals k :
  tableOf globalKey (merge globalKey overrides globals) !! k
  = match overrides !! k with
    | Some new => Some new
    | None => tableOf globalKey globals !! k
    end.
Proof.
  unfold tableOf, merge. rewrite lookup_insert_eq. simpl.
  rewrite merge_fold_lookup. destruct (overrides !! k); [done|].
  by destruct (globals !! globalKey).
Qed.

Lemma merge_other globalKey overrides globals other :
  other <> globalKey -> merge globalKey overrides globals !! other = globals !! other.
Proof. intros Hne. unfold merge. by rewrite lookup_insert_ne. Qed.

(** C6 (as amended): the merge keeps every key of the global table: an
    entry whose key the new block does not register keeps its value, an
    entry whose key the new block registers takes the new block's value;
    tables stored under other global names are untouched. *)
Theorem merge_keeps_entries (globalKey : string) (overrides : gmap string string)
    (globals : gmap string (gmap string string)) (k old : string) :
  tableOf globalKey globals !! k = Some old ->
  tableOf globalKey (merge globalKey overrides globals) !! k
    = Some (default old (overrides !! k))
  /\ (forall other, other <> globalKey ->
        merge globalKey overrides globals !! other = globals !! other).
Proof.
  intros Hk. split.
  - rewrite tableOf_merge, Hk. by destruct (overrides !! k).
  - intros other. apply merge_other.
Qed.

Lemma merge_keeps_entries_witness :
  tableOf "__bundleAssets"
    (merge "__bundleAssets" (b_overrides secondBlock)
       (merge "__bundleAssets" (b_overrides firstBlock) ∅)) !! "./a.txt"
  = Some "/app/a.txt".
Proof.
  apply (merge_keeps_entries "__bundleAssets" (b_overrides secondBlock)
           (merge "__bundleAssets" (b_overrides firstBlock) ∅) "./a.txt" "/app/a.txt").
  vm_compute. reflexivity.
Defined.

(** C6 (as stated) fails: the alias registered by the first block is bound
    to the second block's file once the second block has merged its
    table. *)
Lemma merge_clobbers_counterexample :
  tableOf "__bundleAssets" (merge "__bundleAssets" (b_overrides firstBlock) ∅)
    !! "shared-alias" = Some "/app/a.txt"
  /\ tableOf "__bundleAssets"
       (merge "__bundleAssets" (b_overrides secondBlock)
          (merge "__bundleAssets" (b_overrides firstBlock) ∅))
     !! "shared-alias" = Some "/app/b.txt".
Proof. split; vm_compute; reflexivity. Qed.

(** ** [installResolvers] *)


Lemma installResolvers_noop globalKey p meta :
  resolversInstalled p = true -> installResolvers globalKey p meta = (p, meta).
Proof. intros E. unfold installResolvers. by rewrite E. Qed.

Lemma patchSlot_depth globalKey slot :
  wrapDepthOpt (patchSlot globalKey slot) <= Nat.max 1 (wrapDepthOpt slot).
Proof. destruct slot as [[|gk f]|]; simpl; lia. Qed.

Lemma patchSlot_marked globalKey slot : markedOpt (patchSlot globalKey slot) = true.
Proof. by destruct slot as [[|gk f]|]. Qed.

Lemma runBlocks_installed w bs :
  resolversInstalled (w_process w) = true ->
  w_process (fst (runBlocks w bs)) = w_process w
  /\ snd (runBlocks w bs) = map b_meta bs.
Proof.
  revert w. induction bs as [|b bs IH]; intros w Hw; simpl; [done|].
  unfold runBlock. rewrite installResolvers_noop by done.
  destruct (runBlocks _ bs) as [w' metas] eqn:E.
  destruct (IH (mkWorld (merge (b_globalKey b) (b_overrides b) (w_globals w)) (w_process w)) Hw)
    as [Hp Hm].
  rewrite E in Hp, Hm. simpl in *. by rewrite Hm.
Qed.

(** C5: the block that runs while the installed flag is unset patches the
    resolvers and sets the flag; each patched function carries the
    marker and is wrapped at most once more than before; for every block
    that runs afterwards [installResolvers] changes neither the process
    state (flag and both [Bun] resolvers) nor that block's
    [import.meta.resolve], so the flag never goes back to unset. *)
Theorem resolvers_installed_once (w : world) (b : block) (bs : list block) :
  resolversInstalled (w_process w) = false ->
  let p1 := w_process (fst (runBlock w b)) in
  let meta1 := snd (runBlock w b) in
  resolversInstalled p1 = true
  /\ markedOpt (bunResolveSync p1) = true
  /\ markedOpt (bunResolve p1) = true
  /\ wrapDepthOpt (bunResolveSync p1) <= Nat.max 1 (wrapDepthOpt (bunResolveSync (w_process w)))
  /\ wrapDepthOpt (bunResolve p1) <= Nat.max 1 (wrapDepthOpt (bunResolve (w_process w)))
  /\ wrapDepthOpt (importMetaResolve meta1)
     <= Nat.max 1 (wrapDepthOpt (importMetaResolve (b_meta b)))
  /\ w_process (fst (runBlocks (fst (runBlock w b)) bs)) = p1
  /\ snd (runBlocks (fst (runBlock w b)) bs) = map b_meta bs
  /\ (forall globalKey meta, installResolvers globalKey p1 meta = (p1, meta)).
Proof.
  intros Hfresh p1 meta1. subst p1 meta1. unfold runBlock, installResolvers.
  rewrite Hfresh. simpl.
  split; [done|]. split; [apply patchSlot_marked|]. split; [apply patchSlot_marked|].
  split; [apply patchSlot_depth|]. split; [apply patchSlot_depth|].
  split; [destruct (metaWritable (b_meta b)); simpl; [apply patchSlot_depth|lia]|].
  split; [|split].
  - by apply runBlocks_installed.
  - by apply runBlocks_installed.
  - done.
Qed.

Lemma resolvers_installed_once_witness :
  let w1 := fst (runBlock (mkWorld ∅ freshProcess) firstBlock) in
  resolversInstalled (w_process w1) = true
  /\ wrapDepthOpt (bunResolveSync (w_process w1)) <= 1
  /\ w_process (fst (runBlocks w1 [secondBlock])) = w_process w1
  /\ snd (runBlocks w1 [secondBlock]) = [b_meta secondBlock].
Proof.
  destruct (resolvers_installed_once (mkWorld ∅ freshProcess) firstBlock [secondBlock]
              eq_refl) as (Hflag & _ & _ & Hdepth & _ & _ & Hp & Hm & _).
  exact (conj Hflag (conj Hdepth (conj Hp Hm))).
Defined.

(** The function installed by the first block calls the native resolver
    through one wrapper. *)
Lemma callSync_installed `{Host} (native : nat -> syncResolver) globalKey i :
  callSync native (Wrapper globalKey (Native i)) = patched globalKey (native i).
Proof. reflexivity. Qed.

(** ** Embed-mode extraction *)

Section ExtractionFacts.
Context `{Host} `{Runtime}.

Lemma ret_neverThrows {A} (a : A) : neverThrows (ret a).
Proof. intros s. by exists a, s. Qed.

Lemma tryIgnore_neverThrows {A} (m : M A) : neverThrows (tryIgnore m).
Proof.
  intros s. unfold tryIgnore. destruct (m s) as [[a|e] s']; by exists tt, s'.
Qed.

Lemma exists_neverThrows p : neverThrows (exists_ p).
Proof. intros s. by exists (existsSync p s), s. Qed.

Lemma bind_neverThrows {A B} (m : M A) (k : A -> M B) :
  neverThrows m -> (forall a, neverThrows (k a)) -> neverThrows (bind m k).
Proof.
  intros Hm Hk s. unfold bind. destruct (Hm s) as (a & s' & ->). apply Hk.
Qed.

Lemma forEach_neverThrows {A} (l : list A) (body : A -> M unit) :
  (forall x, neverThrows (body x)) -> neverThrows (forEach l body).
Proof.
  intros Hb. induction l as [|x l IH]; simpl; [apply ret_neverThrows|].
  apply bind_neverThrows; [apply Hb|]. intros _. apply IH.
Qed.

Lemma extractKey_neverThrows buffer key : neverThrows (extractKey buffer key).
Proof.
  unfold extractKey. destruct (bunfsUrlOf key) as [u|]; [|apply ret_neverThrows].
  destruct (negb (Js.truthy u)); [apply ret_neverThrows|apply tryIgnore_neverThrows].
Qed.

Lemma extractAsset_neverThrows cacheDir asset : neverThrows (extractAsset cacheDir asset).
Proof.
  unfold extractAsset. apply bind_neverThrows; [apply exists_neverThrows|].
  intros present. apply bind_neverThrows.
  - destruct (negb present); [|apply ret_neverThrows].
    apply bind_neverThrows; [apply tryIgnore_neverThrows|].
    intros _. apply tryIgnore_neverThrows.
  - intros _. apply forEach_neverThrows. intros key. apply extractKey_neverThrows.
Qed.

(** The loop over [encoded] completes and registers every element. *)
Lemma encodedLoop_result cacheDir encoded (o : gmap string string) s :
  exists s',
    foldM encoded
      (fun overrides asset =>
         bind (extractAsset cacheDir asset) (fun _ =>
         ret (registerAll (m_keys asset) (embedOutputPath cacheDir asset) overrides)))
      o s
    = (Ok (registerEntries (embedOutputPath cacheDir) encoded o), s').
Proof.
  revert o s. induction encoded as [|asset encoded IH]; intros o s.
  - by exists s.
  - simpl. unfold bind at 1 2.
    destruct (extractAsset_neverThrows cacheDir asset s) as ([] & s1 & ->).
    simpl. apply IH.
Qed.

(** C8: in the embed-mode block no failure of [mkdirSync] or
    [writeFileSync] (nor of the URL parsing of a [$bunfs] key) propagates:
    whatever these calls do, and from every state of the file system, the
    extraction completes normally and yields the table registered from
    [encoded] and [entries]. *)
Theorem extraction_never_throws (cacheDir : string)
    (encoded entries : list ManifestEntry) (s : fs) :
  exists s',
    embedBlock cacheDir encoded entries s
    = (Ok (registerEntries (embedOutputPath cacheDir) entries
             (registerEntries (embedOutputPath cacheDir) encoded ∅)), s').
Proof.
  unfold embedBlock. unfold bind at 1.
  destruct (tryIgnore_neverThrows
              (bind (exists_ cacheDir)
                 (fun present => if negb present then mkdir cacheDir else ret tt)) s)
    as ([] & s1 & ->).
  unfold bind at 1.
  destruct (encodedLoop_result cacheDir encoded ∅ s1) as (s2 & ->).
  by exists s2.
Qed.

End ExtractionFacts.

(** On a file system where every [mkdirSync] and [writeFileSync] throws,
    the block still builds its table. *)
Example extraction_on_read_only_fs :
  fst (@embedBlock logoHost Posix.readOnlyRuntime "/cache/abc"
         [mkManifestEntry "./a.txt" "a.txt" ["./a.txt"; "/$bunfs/root/a.txt"] "aGVsbG8="]
         [] [])
  = Ok (@registerEntries logoHost Posix.readOnlyRuntime
          (@embedOutputPath Posix.readOnlyRuntime "/cache/abc")
          [mkManifestEntry "./a.txt" "a.txt" ["./a.txt"; "/$bunfs/root/a.txt"] "aGVsbG8="]
          ∅).
Proof. vm_compute. reflexivity. Qed.

(** ** Plain-string asset entries *)

(** C10: a plain string entry [s] is processed as the object entry with
    specifier [s], no [targetName] and an empty (or absent) [runtimeKeys]:
    the same resolution, hence the same resolved asset or the same error,
    and with it the same relative path and the same manifest keys. *)
Theorem string_entry_is_object_entry `{Host} (eps : list string) (s : string) :
  processEntry eps (AssetString s) = processEntry eps (AssetObject s None (Some []))
  /\ processEntry eps (AssetString s) = processEntry eps (AssetObject s None None)
  /\ (forall a b,
        processEntry eps (AssetString s) = Ok a ->
        processEntry eps (AssetObject s None (Some [])) = Ok b ->
        relativePath a = relativePath b /\ manifestKeys a = manifestKeys b).
Proof.
  split; [reflexivity|]. split; [reflexivity|].
  intros a b Ha Hb.
  assert (Ok a = Ok b) as [= ->] by (rewrite <- Ha, <- Hb; reflexivity).
  done.
Qed.

Lemma string_entry_is_object_entry_witness :
  exists a,
    @processEntry logoHost ["/proj/src/main.ts"] (AssetString "./assets/logo.png") = Ok a
    /\ @processEntry logoHost ["/proj/src/main.ts"]
         (AssetObject "./assets/logo.png" None (Some [])) = Ok a
    /\ relativePath a = "logo.png"
    /\ manifestKeys a
       = ["./assets/logo.png"; "/proj/assets/logo.png"; "file:///proj/assets/logo.png"].
Proof.
  eexists. split; [reflexivity|].
  destruct (@string_entry_is_object_entry logoHost ["/proj/src/main.ts"] "./assets/logo.png")
    as (Heq & _ & _).
  split; [rewrite <- Heq; reflexivity|]. split; reflexivity.
Defined.

(** * Further properties *)

(** ** Key normalizer: shape of the emitted path *)

Lemma sanitizeSegment_length (value : string) :
  String.length (sanitizeSegment value) = String.length value.
Proof. induction value as [|c s IH]; simpl; [done|]. by rewrite IH. Qed.

Lemma sanitizeSegment_idempotent (value : string) :
  sanitizeSegment (sanitizeSegment value) = sanitizeSegment value.
Proof. apply sanitizeSegment_fixed, sanitizeSegment_all. Qed.

(** X1: [sanitizeSegment] replaces character by character: the length is
    kept, sanitizing twice is sanitizing once, and a value is left as it
    is exactly when all its characters are in [[A-Za-z0-9._-]]. *)
Theorem sanitizeSegment_shape (value : string) :
  String.length (sanitizeSegment value) = String.length value
  /\ sanitizeSegment (sanitizeSegment value) = sanitizeSegment value
  /\ (sanitizeSegment value = value <-> Js.all segmentChar value = true).
Proof.
  split; [apply sanitizeSegment_length|]. split; [apply sanitizeSegment_idempotent|].
  split; [|apply sanitizeSegment_fixed].
  intros E. rewrite <- E. apply sanitizeSegment_all.
Qed.

Lemma targetSegments_nonempty (value seg : string) :
  In seg (targetSegments value) -> seg <> "".
Proof.
  unfold targetSegments. intros Hin%list_elem_of_In%list_elem_of_filter.
  destruct Hin as [Ht _]. by destruct seg.
Qed.

Lemma sanitizeSegment_nonempty (seg : string) : seg <> "" -> sanitizeSegment seg <> "".
Proof. by destruct seg. Qed.

(** The segments of a normalized target name. *)
Lemma normalizeTargetName_split (value : string) :
  Js.splitChar "/" (normalizeTargetName value)
  = match targetSegments value with
    | [] => ["asset"]
    | segs => map sanitizeSegment segs
    end.
Proof.
  destruct (targetSegments value) as [|s l] eqn:E.
  - unfold normalizeTargetName. rewrite E. reflexivity.
  - rewrite <- E. apply normalizeTargetName_segments. by rewrite E.
Qed.

Lemma normalizeTargetName_segments_nonempty (value seg : string) :
  In seg (Js.splitChar "/" (normalizeTargetName value)) -> seg <> "".
Proof.
  rewrite normalizeTargetName_split.
  destruct (targetSegments value) as [|s l] eqn:E.
  - by intros [<-|[]].
  - rewrite <- E. intros (x & <- & Hx)%in_map_iff.
    by apply sanitizeSegment_nonempty, (targetSegments_nonempty value).
Qed.

Lemma startsWith_cons (a c : ascii) (p r : string) :
  Js.startsWith (String a p) (String c r)
  = if Ascii.ascii_dec a c then Js.startsWith p r else false.
Proof. reflexivity. Qed.

(** X2: a normalized target name is a relative path in canonical form: it
    is not empty, does not start with [/], has no empty segment (so no
    leading, trailing or doubled [/]) and holds no backslash. *)
Theorem normalizeTargetName_relative (value : string) :
  normalizeTargetName value <> ""
  /\ Js.startsWith "/" (normalizeTargetName value) = false
  /\ (forall seg, In seg (Js.splitChar "/" (normalizeTargetName value)) -> seg <> "")
  /\ Js.all (fun c => negb (Ascii.eqb c "\")) (normalizeTargetName value) = true.
Proof.
  pose proof (normalizeTargetName_segments_nonempty value) as Hseg.
  split; [|split; [|split; [exact Hseg|]]].
  - intros E. rewrite E in Hseg. exact (Hseg "" (or_introl eq_refl) eq_refl).
  - destruct (normalizeTargetName value) as [|c r] eqn:E; [done|].
    rewrite startsWith_cons.
    destruct (Ascii.ascii_dec "/" c) as [<-|]; [|done].
    exfalso. exact (Hseg "" (or_introl eq_refl) eq_refl).
  - apply (all_impl pathChar); [|apply normalizeTargetName_all].
    intros c. destruct (Ascii.eqb_spec c "\") as [->|]; [|done]. vm_compute. done.
Qed.

Lemma splitRuns_plain (sep : ascii -> bool) (b : bool) (s : string) :
  s <> "" -> Js.all (fun c => negb (sep c)) s = true -> Js.splitRuns sep b s = [s].
Proof.
  intros Hne. revert b. induction s as [|c s IH]; [done|]. intros b. simpl.
  intros [Hc Hs]%andb_true_iff. apply negb_true_iff in Hc. rewrite Hc.
  destruct s as [|d s]; [done|]. rewrite (IH ltac:(done) false Hs). done.
Qed.

Lemma splitRuns_app (sep : ascii -> bool) (b : bool) (s rest : string) (c : ascii) :
  s <> "" -> Js.all (fun c => negb (sep c)) s = true -> sep c = true ->
  Js.splitRuns sep b (s +:+ String c rest) = s :: Js.splitRuns sep true rest.
Proof.
  intros Hne Hs Hc. revert b Hs. induction s as [|d s IH]; [done|]. intros b.
  change (String d s +:+ String c rest) with (String d (s +:+ String c rest)).
  simpl. intros [Hd Hs]%andb_true_iff. apply negb_true_iff in Hd. rewrite Hd.
  destruct s as [|e s].
  - change ("" +:+ String c rest) with (String c rest). simpl. by rewrite Hc.
  - by rewrite (IH ltac:(done) false Hs).
Qed.

Lemma splitRuns_join (b : bool) (l : list string) :
  l <> [] ->
  Forall (fun s => s <> "" /\ Js.all (fun c => negb (isSeparator c)) s = true) l ->
  Js.splitRuns isSeparator b (Js.join "/" l) = l.
Proof.
  intros Hne Hall. revert b. induction Hall as [|x l [Hx Hxs] Hl IH]; [done|]. intros b.
  destruct l as [|y l]; [by apply splitRuns_plain|].
  change (Js.join "/" (x :: y :: l)) with (x +:+ String "/" (Js.join "/" (y :: l))).
  rewrite splitRuns_app by done. by rewrite IH.
Qed.

Lemma segmentChar_notSeparator c : segmentChar c = true -> negb (isSeparator c) = true.
Proof.
  unfold isSeparator.
  destruct (Ascii.eqb_spec c "/") as [->|]; [by vm_compute|].
  destruct (Ascii.eqb_spec c "\") as [->|]; [by vm_compute|done].
Qed.

Lemma filter_truthy_all (l : list string) :
  (forall s, In s l -> s <> "") -> filter (fun s => Is_true (Js.truthy s)) l = l.
Proof.
  induction l as [|x l IH]; intros Hl; [done|].
  rewrite filter_cons_True.
  - rewrite IH; [done|]. intros s Hs. apply Hl. by right.
  - assert (x <> "") by (apply Hl; by left). by destruct x.
Qed.

Lemma targetSegments_join (l : list string) :
  l <> [] -> (forall s, In s l -> s <> "" /\ Js.all segmentChar s = true) ->
  targetSegments (Js.join "/" l) = l.
Proof.
  intros Hne Hl. unfold targetSegments. rewrite splitRuns_join; [|done|].
  - apply filter_truthy_all. intros s Hs. by apply Hl.
  - apply List.Forall_forall. intros s Hs. destruct (Hl s Hs) as [H1 H2].
    split; [done|]. apply (all_impl segmentChar); [apply segmentChar_notSeparator|done].
Qed.

(** X3: normalizing a target name twice is normalizing it once. *)
Theorem normalizeTargetName_idempotent (value : string) :
  normalizeTargetName (normalizeTargetName value) = normalizeTargetName value.
Proof.
  destruct (targetSegments value) as [|s l] eqn:E.
  - assert (normalizeTargetName value = "asset") as ->; [|reflexivity].
    unfold normalizeTargetName. by rewrite E.
  - assert (normalizeTargetName value = Js.join "/" (map sanitizeSegment (s :: l))) as Hn.
    { unfold normalizeTargetName. by rewrite E. }
    rewrite Hn. unfold normalizeTargetName at 1.
    rewrite targetSegments_join; [|done|].
    + simpl Nat.eqb. cbv iota. rewrite map_map.
      f_equal. apply map_ext. intros x. apply sanitizeSegment_idempotent.
    + intros x (y & <- & Hy)%in_map_iff. split; [|apply sanitizeSegment_all].
      apply sanitizeSegment_nonempty, (targetSegments_nonempty value). by rewrite E.
Qed.

(** X4: without [targetName] the asset is emitted directly in the output
    root: its relative path is the sanitized base name of the source file
    (the sanitized specifier when that name is empty), one segment of the
    same length with no [/]. *)
Theorem relativePath_without_targetName (base : string -> string) (sp spec : string) :
  let name := if Js.truthy (base sp) then base sp else spec in
  relativePathOf base None sp spec = sanitizeSegment name
  /\ Js.splitChar "/" (relativePathOf base None sp spec) = [relativePathOf base None sp spec]
  /\ String.length (relativePathOf base None sp spec) = String.length name.
Proof.
  intros name. unfold relativePathOf. fold name.
  split; [done|]. split; [|apply sanitizeSegment_length].
  apply splitChar_plain, (all_impl segmentChar);
    [apply segmentChar_notSlash|apply sanitizeSegment_all].
Qed.

(** ** Specifier resolver: what a result is, and what is never tried *)

Section ResolverResults.
Context `{Host}.
Variable spec : string.







End ResolverResults.



Section ResolverShortcuts.
Context `{Host}.
Variable spec : string.
Hypothesis normalize_nonempty : forall p, normalize p <> "".

Lemma tryPath_attempted_mono p q st :
  In q (st_attempted st) -> In q (st_attempted (snd (tryPath p st))).
Proof.
  unfold tryPath. destruct (Js.includes _ _); [done|].
  destruct (fileExists _); simpl; intros Hq; apply in_app_iff; by left.
Qed.

Lemma tryUrl_attempted_mono u q st :
  In q (st_attempted st) -> In q (st_attempted (snd (tryUrl u st))).
Proof.
  intros Hq. unfold tryUrl, toFilePath.
  destruct (Js.startsWith "file://" u).
  - destruct (fileURLToPath u) as [filePath|err]; [|done].
    pose proof (tryPath_attempted_mono filePath q (record (EvToPath u (Ok filePath)) st) Hq)
      as Hm.
    destruct (tryPath filePath _) as [matched st']. simpl in Hm.
    destruct (st_sourcePath st') as [sp|]; [|done].
    by destruct (matched && Js.truthy sp).
  - pose proof (tryPath_attempted_mono
                  (if isAbsolute u then u else resolvePath cwd u) q st Hq) as Hm.
    destruct (tryPath _ st) as [matched st']. simpl in Hm.
    destruct (st_sourcePath st') as [sp|]; [|done].
    by destruct (matched && Js.truthy sp).
Qed.

Lemma runAttempt_attempted_mono a q st :
  In q (st_attempted st) -> In q (st_attempted (snd (runAttempt spec a st))).
Proof.
  destruct a as [u|p|parent]; simpl.
  - apply tryUrl_attempted_mono.
  - apply tryPath_attempted_mono.
  - intros Hq. unfold attemptImportMetaResolve.
    destruct (metaResolve spec _); [by apply tryUrl_attempted_mono|done].
Qed.

Lemma firstSuccess_attempted_mono l q st :
  In q (st_attempted st) -> In q (st_attempted (firstSuccess spec l st)).
Proof.
  revert st. induction l as [|a l IH]; intros st Hq; simpl; [done|].
  pose proof (runAttempt_attempted_mono a q st Hq) as Hm.
  destruct (runAttempt spec a st) as [[] st']; [done|]. by apply IH.
Qed.

Lemma andThen_attempted_mono l q st :
  In q (st_attempted st) -> In q (st_attempted (andThen spec l st)).
Proof.
  unfold andThen. destruct (unresolved st); [apply firstSuccess_attempted_mono|done].
Qed.

Lemma andThen_resolved l st : unresolved st = false -> andThen spec l st = st.
Proof. intros E. unfold andThen. by rewrite E. Qed.

(** Once a path is in [attempted], testing it again changes nothing. *)
Lemma tryPath_again p st :
  In (normalize p) (st_attempted st) -> tryPath p st = (false, st).
Proof.
  intros Hin. unfold tryPath.
  by rewrite (proj2 (includes_true_iff _ _) (proj2 (list_elem_of_In _ _) Hin)).
Qed.

Lemma tryPath_attempted p st : In (normalize p) (st_attempted (snd (tryPath p st))).
Proof.
  unfold tryPath. destruct (Js.includes _ _) eqn:E.
  - by apply list_elem_of_In, includes_true_iff.
  - destruct (fileExists _); simpl; apply in_app_iff; right; by left.
Qed.

Lemma andThen_unresolved l st : unresolved (andThen spec l st) = true -> unresolved st = true.
Proof.
  unfold andThen. destruct (unresolved st) eqn:E; [done|]. intros Hu. congruence.
Qed.

(** X6: for a [./] or [../] specifier the final test against the working
    directory is never carried out: that path was already tested in the
    relative step, so the chain is the one without the fallback. *)
Theorem relative_fallback_is_idle (eps : list string) :
  isRelative spec = true ->
  resolveChain spec eps
  = firstSuccess spec
      (directAttempts spec ++ relativeAttempts spec eps ++ resolverAttempts eps) initial.
Proof using normalize_nonempty.
  intros Hrel. rewrite resolveChain_andThen by done. rewrite Hrel.
  set (st2 := andThen spec (relativeAttempts spec eps)
                (andThen spec (directAttempts spec) initial)).
  set (st4 := andThen spec [TryResolve None] (andThen spec _ st2)).
  assert (andThen spec (fallbackAttempts spec) st4 = st4) as ->.
  { destruct (unresolved st4) eqn:Hun; [|by apply andThen_resolved].
    unfold andThen. rewrite Hun. unfold fallbackAttempts.
    destruct (negb (isUrlOrAbsolute spec)); [|done].
    rewrite firstSuccess_single. simpl runAttempt. rewrite tryPath_again; [done|].
    subst st4. do 2 apply andThen_attempted_mono.
    apply andThen_unresolved, andThen_unresolved in Hun.
    subst st2. set (st1 := andThen spec (directAttempts spec) initial) in *.
    apply andThen_unresolved in Hun as Hun1.
    unfold andThen. rewrite Hun1. unfold relativeAttempts.
    cbn [firstSuccess runAttempt].
    pose proof (tryPath_attempted (resolvePath cwd spec) st1) as Hin.
    destruct (tryPath (resolvePath cwd spec) st1) as [[] st']; simpl in Hin; [done|].
    by apply firstSuccess_attempted_mono. }
  subst st4 st2. rewrite <- !andThen_app by done.
  unfold andThen. change (unresolved initial) with true. cbv iota.
  unfold resolverAttempts. by rewrite <- ?app_assoc.
Qed.

(** X7: a [./] or [../] specifier whose file exists under the working
    directory is resolved by that single existence test: no entry point
    directory is tried and the host resolver is not called. *)
Theorem cwd_match_is_first (eps : list string) :
  isRelative spec = true -> isAbsolute spec = false ->
  fileExists (normalize (resolvePath cwd spec)) = true ->
  let p := normalize (resolvePath cwd spec) in
  resolveChain spec eps
  = mkRstate [p] [] (Some (normalize p)) (Some (pathToFileURL (normalize p)))
             [EvExists p true].
Proof using normalize_nonempty.
  intros Hrel Habs Hex p. fold p in Hex.
  assert (Js.startsWith "file://" spec = false) as Hurl.
  { unfold isRelative in Hrel. apply orb_true_iff in Hrel.
    destruct Hrel as [Hr|Hr]; (eapply startsWith_head; [|exact Hr]; done). }
  set (st := mkRstate [p] [] (Some (normalize p)) (Some (pathToFileURL (normalize p)))
               [EvExists p true]).
  assert (tryPath (resolvePath cwd spec) initial = (true, st)) as Ht.
  { unfold tryPath. fold p. change (Js.includes p (st_attempted initial)) with false.
    cbv iota zeta. by rewrite Hex. }
  assert (unresolved st = false) as Hres.
  { unfold unresolved. subst st. simpl. by rewrite truthy_nonempty. }
  unfold resolveChain. rewrite Hurl, Habs, Hrel.
  change (unresolved initial) with true. simpl andb. cbv iota zeta.
  rewrite !Ht. cbn [snd]. rewrite !Hres. simpl andb. cbv iota.
  rewrite ?Hres. reflexivity.
Qed.

End ResolverShortcuts.

Lemma relative_fallback_is_idle_witness :
  @resolveChain vendorHost "./logo.png" ["/proj/src/main.ts"]
  = @firstSuccess vendorHost "./logo.png"
      [TryPath "/proj/logo.png"; TryPath "/proj/src/logo.png";
       TryResolve (Some "file:///proj/src/main.ts"); TryResolve None] initial.
Proof.
  apply (@relative_fallback_is_idle vendorHost "./logo.png" posix_normalize_nonempty
           ["/proj/src/main.ts"]).
  reflexivity.
Defined.

Lemma cwd_match_is_first_witness :
  @resolveChain logoHost "./assets/logo.png" ["/proj/src/main.ts"]
  = mkRstate ["/proj/assets/logo.png"] [] (Some "/proj/assets/logo.png")
             (Some "file:///proj/assets/logo.png")
             [EvExists "/proj/assets/logo.png" true].
Proof.
  apply (@cwd_match_is_first logoHost "./assets/logo.png" posix_normalize_nonempty
           ["/proj/src/main.ts"]); reflexivity.
Defined.

(** ** The asset loop *)

Lemma processAssets_Ok `{Host} eps assets l :
  processAssets eps assets = Ok l ->
  Forall2 (fun entry asset => processEntry eps entry = Ok asset) assets l.
Proof.
  revert l. induction assets as [|entry rest IH]; intros l; simpl.
  - intros [= <-]. constructor.
  - destruct (processEntry eps entry) as [a|e] eqn:Ea; [|done].
    destruct (processAssets eps rest) as [l'|e]; [|done].
    intros [= <-]. constructor; [done|by apply IH].
Qed.

Lemma processAssets_Throw `{Host} eps assets e :
  processAssets eps assets = Throw e ->
  exists done_ entry rest,
    assets = done_ ++ entry :: rest
    /\ Forall (fun x => exists a, processEntry eps x = Ok a) done_
    /\ processEntry eps entry = Throw e.
Proof.
  induction assets as [|entry rest IH]; simpl; [done|].
  destruct (processEntry eps entry) as [a|e'] eqn:Ea.
  - destruct (processAssets eps rest) as [l'|e'']; [done|].
    intros [= ->]. destruct (IH eq_refl) as (d & x & r & -> & Hd & Hx).
    exists (entry :: d), x, r. split; [done|]. split; [|done].
    constructor; [by exists a|done].
  - intros [= ->]. exists [], entry, rest. split; [done|]. split; [constructor|done].
Qed.

(** X8: the asset loop keeps the order of the entries and stops at the
    first one that cannot be resolved: a successful run yields exactly one
    resolved asset per entry, in order and with the entry's specifier and
    runtime keys; a failed run reports the error of the first failing
    entry, all entries before it having been resolved. *)
Theorem processAssets_in_order `{Host} (eps : list string) (assets : list AssetInput) :
  (forall l, processAssets eps assets = Ok l ->
     Forall2 (fun entry asset => processEntry eps entry = Ok asset) assets l
     /\ map specifier l = map entrySpecifier assets
     /\ map runtimeKeys l = map entryRuntimeKeys assets)
  /\ (forall e, processAssets eps assets = Throw e ->
       exists done_ entry rest,
         assets = done_ ++ entry :: rest
         /\ Forall (fun x => exists a, processEntry eps x = Ok a) done_
         /\ processEntry eps entry = Throw e).
Proof.
  split; [|apply processAssets_Throw].
  intros l Hl%processAssets_Ok. split; [done|].
  induction Hl as [|entry asset assets l Hea _ [IH1 IH2]]; [done|].
  apply processEntry_Ok in Hea as (sp & _ & _ & Hs & _ & _ & Hk).
  simpl. by rewrite Hs, Hk, IH1, IH2.
Qed.

Lemma processAssets_in_order_witness :
  exists done_ entry rest,
    [AssetString "./assets/logo.png"; AssetString "./missing.txt"; AssetString "pkg"]
      = done_ ++ entry :: rest
    /\ @processEntry logoHost ["/proj/src/main.ts"] entry
       = Throw (notFoundMessage "./missing.txt"
                  ["/proj/missing.txt"; "/proj/src/missing.txt"]
                  ["ResolveMessage: Cannot find module ./missing.txt";
                   "ResolveMessage: Cannot find module ./missing.txt"]).
Proof.
  destruct (@processAssets_in_order logoHost ["/proj/src/main.ts"]
              [AssetString "./assets/logo.png"; AssetString "./missing.txt";
               AssetString "pkg"]) as [_ Hthrow].
  destruct (Hthrow _ eq_refl) as (d & x & r & E & _ & Hx).
  exists d, x, r. split; [exact E|exact Hx].
Defined.

(** ** Manifest keys *)

Lemma setAddAll_NoDup l seen : NoDup seen -> NoDup (Js.setAddAll seen l).
Proof.
  revert seen. induction l as [|x l IH]; intros seen Hs; simpl; [done|].
  destruct (Js.includes x seen) eqn:Hx; [by apply IH|].
  apply IH, NoDup_app. split; [done|]. split; [|apply NoDup_singleton].
  intros y Hy ->%list_elem_of_singleton. by apply includes_false_not_in in Hx.
Qed.

Lemma stripDotSlash_slice key : Js.startsWith "./" key = true -> stripDotSlash key = Js.slice 2 key.
Proof. intros E. unfold stripDotSlash. by rewrite E. Qed.

(** X9: the [keys] array of a manifest entry has no repetition and no
    empty string, and holds exactly: the non-empty runtime keys; for every
    runtime key [./rest] the two forms [file:///$bunfs/root/rest] and
    [/$bunfs/root/rest]; and the specifier, the source path and the source
    URL when they are not empty. *)
Theorem manifestKeys_exactly (asset : ResolvedAsset) (k : string) :
  NoDup (manifestKeys asset)
  /\ (In k (manifestKeys asset) <->
      k <> ""
      /\ (In k (runtimeKeys asset)
          \/ (exists key, In key (runtimeKeys asset) /\ Js.startsWith "./" key = true
                          /\ (k = "file:///$bunfs/root/" +:+ Js.slice 2 key
                              \/ k = "/$bunfs/root/" +:+ Js.slice 2 key))
          \/ k = specifier asset \/ k = sourcePath asset \/ k = sourceUrl asset)).
Proof.
  split; [apply setAddAll_NoDup, NoDup_nil_2|].
  unfold manifestKeys, Js.arrayFromSet. rewrite setAddAll_In. split.
  - intros [[]|Hin]. apply list_elem_of_In, list_elem_of_filter in Hin as [Ht Hk].
    split; [by destruct k|].
    apply elem_of_app in Hk as [Hk|Hk]; [left; by apply list_elem_of_In|].
    apply elem_of_app in Hk as [Hk|Hk].
    + right; left. apply list_elem_of_In, in_flat_map in Hk as (key & Hkey & Hin).
      apply list_elem_of_In, list_elem_of_filter in Hkey as [Hp Hkey].
      apply Is_true_true in Hp. exists key.
      split; [by apply list_elem_of_In|]. split; [done|].
      rewrite stripDotSlash_slice in Hin by done.
      destruct Hin as [<-|[<-|[]]]; auto.
    + right; right. apply list_elem_of_In in Hk.
      destruct Hk as [<-|[<-|[<-|[]]]]; auto.
  - intros [Hne Hk]. right. apply list_elem_of_In, list_elem_of_filter.
    split; [by destruct k|].
    destruct Hk as [Hk|[(key & Hkey & Hp & Hin)|Hk]].
    + apply elem_of_app. left. by apply list_elem_of_In.
    + apply elem_of_app. right. apply elem_of_app. left.
      apply list_elem_of_In, in_flat_map. exists key. split.
      * apply list_elem_of_In, list_elem_of_filter. split; [by apply Is_true_true|].
        by apply list_elem_of_In.
      * rewrite stripDotSlash_slice by done. destruct Hin as [->| ->]; simpl; auto.
    + apply elem_of_app. right. apply elem_of_app. right. apply list_elem_of_In.
      simpl. destruct Hk as [->|[->| ->]]; auto.
Qed.

(** ** Registration: growth, origin of the values, repeated registration *)

Section RegistrationGrowth.
Context `{Host} `{Runtime}.

Lemma registerAll_cases keys value (o : gmap string string) k :
  registerAll keys value o !! k = o !! k
  \/ (o !! k = None /\ registerAll keys value o !! k = Some value).
Proof.
  unfold registerAll.
  destruct (registerKey_cases value value o k) as [E1|[F1 E1]].
  - destruct (registerKey_cases (pathToFileURL value) value (registerKey value value o) k)
      as [E2|[F2 E2]].
    + destruct (foldl_registerKey_cases keys value
                  (registerKey (pathToFileURL value) value (registerKey value value o)) k)
        as [E3|[F3 E3]].
      * left. congruence.
      * right. split; congruence.
    + right. split; [congruence|]. by apply foldl_registerKey_preserves.
  - right. split; [done|]. by apply foldl_registerKey_preserves, registerKey_preserves.
Qed.

Lemma registerEntries_cases out entries (o : gmap string string) k :
  registerEntries out entries o !! k = o !! k
  \/ (o !! k = None
      /\ exists asset, In asset entries /\ registerEntries out entries o !! k = Some (out asset)).
Proof.
  revert o. induction entries as [|a entries IH]; intros o; [by left|].
  change (registerEntries out (a :: entries) o)
    with (registerEntries out entries (registerAll (m_keys a) (out a) o)).
  destruct (registerAll_cases (m_keys a) (out a) o k) as [E|[F E]].
  - destruct (IH (registerAll (m_keys a) (out a) o)) as [E'|(F' & b & Hb & E')].
    + left. congruence.
    + right. split; [congruence|]. exists b. split; [by right|done].
  - right. split; [done|]. exists a. split; [by left|].
    by apply registerEntries_preserves.
Qed.

(** X10: registration only adds to the table: after any run of
    [registerAll] calls every earlier binding is still there with its
    value, and every binding that is new maps its key to the output path
    of one of the registered entries. *)
Theorem registerEntries_grows (out : ManifestEntry -> string)
    (entries : list ManifestEntry) (o : gmap string string) :
  o ⊆ registerEntries out entries o
  /\ (forall k v, registerEntries out entries o !! k = Some v ->
        o !! k = Some v \/ (o !! k = None /\ exists asset, In asset entries /\ v = out asset)).
Proof.
  split.
  - apply map_subseteq_spec. intros k v. apply registerEntries_preserves.
  - intros k v Hk.
    destruct (registerEntries_cases out entries o k) as [E|(F & a & Ha & E)].
    + left. congruence.
    + right. split; [done|]. exists a. split; [done|congruence].
Qed.

Lemma foldl_setIfAbsent_bound value vs (o : gmap string string) :
  (forall v, v ∈ vs -> is_Some (o !! v)) -> foldl (setIfAbsent value) o vs = o.
Proof.
  intros Hb. apply map_eq. intros k. rewrite foldl_setIfAbsent_lookup.
  destruct (o !! k) eqn:E; [done|].
  case_decide as Hin; [|done]. destruct (Hb k Hin) as [x Hx]. congruence.
Qed.

Lemma registerKey_bound key value (o : gmap string string) :
  (key <> "" -> forall v, v ∈ keyVariants key -> is_Some (o !! v)) ->
  registerKey key value o = o.
Proof.
  intros Hb. unfold registerKey. destruct (Js.truthy key) eqn:E; [|done]. simpl.
  apply foldl_setIfAbsent_bound, Hb. by apply truthy_true_iff.
Qed.

Lemma registerKey_binds key value (o : gmap string string) v :
  key <> "" -> v ∈ keyVariants key -> is_Some (registerKey key value o !! v).
Proof.
  intros Hne Hin. rewrite registerKey_lookup by done.
  destruct (o !! v); [done|]. by rewrite decide_True.
Qed.

Lemma registerKey_is_Some key value (o : gmap string string) v :
  is_Some (o !! v) -> is_Some (registerKey key value o !! v).
Proof. intros [x Hx]. exists x. by apply registerKey_preserves. Qed.

Lemma foldl_registerKey_is_Some keys value (o : gmap string string) v :
  is_Some (o !! v) -> is_Some (foldl (fun o key => registerKey key value o) o keys !! v).
Proof. intros [x Hx]. exists x. by apply foldl_registerKey_preserves. Qed.

Lemma foldl_registerKey_binds keys value (o : gmap string string) key v :
  In key keys -> key <> "" -> v ∈ keyVariants key ->
  is_Some (foldl (fun o key => registerKey key value o) o keys !! v).
Proof.
  revert o. induction keys as [|k keys IH]; intros o Hin Hne Hv; [done|].
  simpl. destruct Hin as [->|Hin]; [|by apply IH].
  by apply foldl_registerKey_is_Some, registerKey_binds.
Qed.

Lemma registerAll_covered keys value (o : gmap string string) :
  covered keys value (registerAll keys value o).
Proof.
  intros key Hin Hne v Hv. unfold registerAll.
  destruct Hin as [<-|[<-|Hin]].
  - by apply foldl_registerKey_is_Some, registerKey_is_Some, registerKey_binds.
  - by apply foldl_registerKey_is_Some, registerKey_binds.
  - by apply (foldl_registerKey_binds _ _ _ key).
Qed.

Lemma covered_mono keys value (o o' : gmap string string) :
  o ⊆ o' -> covered keys value o -> covered keys value o'.
Proof.
  intros Hsub Hc key Hin Hne v Hv. destruct (Hc key Hin Hne v Hv) as [x Hx].
  exists x. by eapply lookup_weaken.
Qed.

Lemma foldl_registerKey_bound keys value (o : gmap string string) :
  (forall key, In key keys -> key <> "" -> forall v, v ∈ keyVariants key -> is_Some (o !! v)) ->
  foldl (fun o key => registerKey key value o) o keys = o.
Proof.
  induction keys as [|k keys IH]; intros Hb; [done|]. simpl.
  rewrite registerKey_bound; [|intros Hne; apply Hb; [by left|done]].
  apply IH. intros key Hin. apply Hb. by right.
Qed.

Lemma registerAll_bound keys value (o : gmap string string) :
  covered keys value o -> registerAll keys value o = o.
Proof.
  intros Hc. unfold registerAll.
  rewrite (registerKey_bound value); [|intros Hne; apply Hc; [by left|done]].
  rewrite (registerKey_bound (pathToFileURL value));
    [|intros Hne; apply Hc; [right; by left|done]].
  apply foldl_registerKey_bound. intros key Hin. apply Hc. by do 2 right.
Qed.

Lemma registerAll_subseteq keys value (o : gmap string string) :
  o ⊆ registerAll keys value o.
Proof. apply map_subseteq_spec. intros k v. apply registerAll_preserves. Qed.

Lemma registerEntries_subseteq out entries (o : gmap string string) :
  o ⊆ registerEntries out entries o.
Proof. apply map_subseteq_spec. intros k v. apply registerEntries_preserves. Qed.

Lemma registerEntries_covered out entries (o : gmap string string) :
  Forall (fun a => covered (m_keys a) (out a) (registerEntries out entries o)) entries.
Proof.
  revert o. induction entries as [|a entries IH]; intros o; [constructor|].
  change (registerEntries out (a :: entries) o)
    with (registerEntries out entries (registerAll (m_keys a) (out a) o)).
  constructor; [|apply IH].
  eapply covered_mono; [apply registerEntries_subseteq|apply registerAll_covered].
Qed.

Lemma registerEntries_bound out entries (o : gmap string string) :
  Forall (fun a => covered (m_keys a) (out a) o) entries ->
  registerEntries out entries o = o.
Proof.
  induction 1 as [|a entries Ha Hl IH]; [done|].
  change (registerEntries out (a :: entries) o)
    with (registerEntries out entries (registerAll (m_keys a) (out a) o)).
  by rewrite registerAll_bound.
Qed.

(** X11: registering the same entries a second time changes nothing, and
    so the second registration loop of the embed-mode block (over
    [entries], after the loop over [encoded] that registers the same keys
    for the same paths) leaves the table as the first loop built it. *)
Theorem embed_second_loop_is_idle (cacheDir : string) (assets : list ResolvedAsset)
    (payload : ResolvedAsset -> string) (s : fs) :
  let encoded := map (fun asset => manifestEntry (payload asset) asset) assets in
  let entries := map (manifestEntry "") assets in
  (forall out l o, registerEntries out l (registerEntries out l o) = registerEntries out l o)
  /\ exists s',
       embedBlock cacheDir encoded entries s
       = (Ok (registerEntries (embedOutputPath cacheDir) encoded ∅), s').
Proof.
  intros encoded entries. split.
  - intros out l o. apply registerEntries_bound, registerEntries_covered.
  - unfold embedBlock. unfold bind at 1.
    destruct (tryIgnore_neverThrows
                (bind (exists_ cacheDir)
                   (fun present => if negb present then mkdir cacheDir else ret tt)) s)
      as ([] & s1 & ->).
    unfold bind at 1.
    destruct (encodedLoop_result cacheDir encoded ∅ s1) as (s2 & ->).
    exists s2. unfold ret. f_equal. f_equal.
    apply registerEntries_bound.
    pose proof (registerEntries_covered (embedOutputPath cacheDir) encoded ∅) as Hc.
    subst encoded entries. apply List.Forall_map. apply List.Forall_map in Hc.
    revert Hc. apply List.Forall_impl. intros a Ha. exact Ha.
Qed.

End RegistrationGrowth.

(** ** Lookup after the merge *)

Section LookupFacts.
Context `{Host}.

Lemma findOverride_direct globalKey k v globals :
  k <> "" -> tableOf globalKey globals !! k = Some v ->
  findOverride globalKey k globals = Some v.
Proof.
  intros Hne%truthy_true_iff Hk. unfold findOverride, tableOf in *. rewrite Hne. simpl.
  destruct (globals !! globalKey) as [table|]; simpl in Hk;
    [|by rewrite lookup_empty in Hk].
  unfold hasOwn. by rewrite Hk.
Qed.

Lemma findOverride_table globalKey k globals globals' :
  globals !! globalKey = globals' !! globalKey ->
  findOverride globalKey k globals = findOverride globalKey k globals'.
Proof. intros E. unfold findOverride. by rewrite E. Qed.

(** X12: what a block merges is what lookups find.  After the merge every
    non-empty key of the block's table is found with the block's value;
    the empty specifier is never overridden; and a merge under one global
    name changes no lookup made under another name. *)
Theorem lookup_after_merge (globalKey : string) (overrides : gmap string string)
    (globals : gmap string (gmap string string)) :
  (forall k v, k <> "" -> overrides !! k = Some v ->
     findOverride globalKey k (merge globalKey overrides globals) = Some v)
  /\ findOverride globalKey "" (merge globalKey overrides globals) = None
  /\ (forall other k, other <> globalKey ->
        findOverride other k (merge globalKey overrides globals)
        = findOverride other k globals).
Proof.
  split; [|split].
  - intros k v Hne Hk. apply findOverride_direct; [done|].
    by rewrite tableOf_merge, Hk.
  - reflexivity.
  - intros other k Hne. apply findOverride_table. by apply merge_other.
Qed.



(** X14: the helper and the lookup agree.  For a non-empty specifier the
    helper returns exactly what [findOverride] finds ([null] when it
    finds nothing: the read of [map[specifier]] adds nothing), and without
    a table it returns [null]. *)
Theorem getBundleAsset_is_findOverride (globalKey specifier : string)
    (globals : gmap string (gmap string string)) :
  (specifier <> "" ->
   getBundleAsset globalKey specifier globals = findOverride globalKey specifier globals)
  /\ (globals !! globalKey = None -> getBundleAsset globalKey specifier globals = None).
Proof.
  split.
  - intros Hne%truthy_true_iff. unfold getBundleAsset, findOverride. rewrite Hne. simpl.
    destruct (globals !! globalKey) as [table|]; [|done].
    unfold hasOwn. destruct (table !! specifier) eqn:E; [done|].
    repeat match goal with
           | |- context [if ?b then _ else _] => destruct b
           | |- context [match ?r with Ok _ => _ | Throw _ => _ end] => destruct r
           | |- context [match ?x with Some _ => _ | None => _ end] => destruct x eqn:?
           end; congruence.
  - intros E. unfold getBundleAsset. by rewrite E.
Qed.

End LookupFacts.


(** ** Blocks under different global names *)

(** X15: the resolvers are patched by the first block only and look up the
    table under that block's global name.  A later block that uses another
    global name merges its table where those resolvers never look: the
    installed [Bun.resolveSync] is still the first block's wrapper, and
    every lookup it makes gives what it gave before the later block ran. *)
Theorem other_global_name_is_invisible `{Host} (w : world) (b1 b2 : block) (i : nat) :
  resolversInstalled (w_process w) = false ->
  bunResolveSync (w_process w) = Some (Native i) ->
  b_globalKey b2 <> b_globalKey b1 ->
  let w1 := fst (runBlock w b1) in
  let w2 := fst (runBlocks w [b1; b2]) in
  bunResolveSync (w_process w2) = Some (Wrapper (b_globalKey b1) (Native i))
  /\ (forall specifier,
        findOverride (b_globalKey b1) specifier (w_globals w2)
        = findOverride (b_globalKey b1) specifier (w_globals w1))
  /\ (forall native specifier options,
        callSync native (Wrapper (b_globalKey b1) (Native i)) specifier options (w_globals w2)
        = patched (b_globalKey b1) (native i) specifier options (w_globals w2)).
Proof.
  intros Hfresh Hsync Hne w1 w2. subst w1 w2.
  unfold runBlocks, runBlock, installResolvers. rewrite Hfresh. simpl.
  rewrite Hsync. simpl. split; [done|]. split; [|done].
  intros specifier. apply findOverride_table. by apply merge_other.
Qed.

Lemma other_global_name_is_invisible_witness :
  @findOverride logoHost "__bundleAssets" "./b.txt"
    (w_globals (fst (runBlocks (mkWorld ∅ freshProcess) [firstBlock; otherKeyBlock])))
  = None
  /\ @findOverride logoHost "__otherAssets" "./b.txt"
       (w_globals (fst (runBlocks (mkWorld ∅ freshProcess) [firstBlock; otherKeyBlock])))
     = Some "/app/b.txt".
Proof.
  destruct (@other_global_name_is_invisible logoHost (mkWorld ∅ freshProcess)
              firstBlock otherKeyBlock 0 eq_refl eq_refl) as (_ & Hsame & _); [done|].
  split; [|by vm_compute]. rewrite Hsame. by vm_compute.
Defined.

(** ** Embed-mode extraction: existing files are left alone *)

Section ExtractionKeeps.
Context `{Host} `{Runtime}.

(** What can be read of a file, and the laws of the file system: creating
    a directory or writing a file never removes anything, creating a
    directory changes no existing file, and writing a file changes no
    other file.  They hold whether the call succeeds or throws. *)
Variable content : string -> fs -> option string.
Hypothesis mkdir_exists : forall p q s,
  existsSync q s = true -> existsSync q (snd (mkdirSync p s)) = true.
Hypothesis write_exists : forall p d q s,
  existsSync q s = true -> existsSync q (snd (writeFileSync p d s)) = true.
Hypothesis mkdir_content : forall p q s,
  existsSync q s = true -> content q (snd (mkdirSync p s)) = content q s.
Hypothesis write_content : forall p d q s,
  q <> p -> content q (snd (writeFileSync p d s)) = content q s.

Variable q : string.
Variable s0 : fs.

(** [q] is still there with the content it had in [s0]. *)
Let kept (s : fs) : Prop := existsSync q s = true /\ content q s = content q s0.

Let keeps {A} (m : M A) (s : fs) : Prop := kept s -> kept (snd (m s)).

Lemma ret_keeps {A} (a : A) s : keeps (ret a) s.
Proof. by intros Hk. Qed.

Lemma bind_keeps {A B} (m : M A) (k : A -> M B) s :
  keeps m s -> (forall a s', m s = (Ok a, s') -> keeps (k a) s') -> keeps (bind m k) s.
Proof.
  intros Hm Hk Hs. unfold bind. specialize (Hm Hs).
  destruct (m s) as [[a|e] s'] eqn:E; [|done]. by apply (Hk a s').
Qed.

Lemma tryIgnore_keeps {A} (m : M A) s : keeps m s -> keeps (tryIgnore m) s.
Proof.
  intros Hm Hs. unfold tryIgnore. specialize (Hm Hs).
  by destruct (m s) as [[a|e] s'].
Qed.

Lemma mkdir_keeps p s : keeps (mkdir p) s.
Proof using mkdir_exists mkdir_content.
  intros [He Hc]. unfold mkdir. split; [by apply mkdir_exists|].
  by rewrite mkdir_content.
Qed.

Lemma writeFile_keeps p d s : q <> p -> keeps (writeFile p d) s.
Proof using write_exists write_content.
  intros Hne [He Hc]. unfold writeFile. split; [by apply write_exists|].
  by rewrite write_content.
Qed.

Lemma forEach_keeps {A} (l : list A) (body : A -> M unit) s :
  (forall x s', keeps (body x) s') -> keeps (forEach l body) s.
Proof.
  intros Hb. revert s. induction l as [|x l IH]; intros s; simpl; [apply ret_keeps|].
  apply bind_keeps; [apply Hb|]. intros _ s' _. apply IH.
Qed.

(** A write guarded by a failed existence test cannot hit [q]. *)
Lemma absent_differs p s : kept s -> existsSync p s = false -> q <> p.
Proof. intros [He _] Hp ->. congruence. Qed.

Lemma extractKey_keeps buffer key s : keeps (extractKey buffer key) s.
Proof using All.
  unfold extractKey. destruct (bunfsUrlOf key) as [u|]; [|apply ret_keeps].
  destruct (negb (Js.truthy u)); [apply ret_keeps|].
  apply tryIgnore_keeps, bind_keeps; [by intros Hk|].
  intros bunfsPath s1 Hs1. apply bind_keeps; [by intros Hk|].
  intros present s2 [= <- <-]. intros Hk.
  destruct (existsSync bunfsPath s1) eqn:Hp; [done|]. simpl.
  pose proof (absent_differs _ _ Hk Hp) as Hne. revert Hk.
  apply bind_keeps; [apply mkdir_keeps|]. intros _ s3 _. by apply writeFile_keeps.
Qed.

Lemma extractAsset_keeps cacheDir asset s : keeps (extractAsset cacheDir asset) s.
Proof using All.
  unfold extractAsset. apply bind_keeps; [by intros Hk|].
  intros present s1 [= <- <-]. apply bind_keeps.
  - intros Hk. destruct (existsSync (embedOutputPath cacheDir asset) s) eqn:Hp; [done|].
    simpl. pose proof (absent_differs _ _ Hk Hp) as Hne. revert Hk.
    apply bind_keeps; [apply tryIgnore_keeps, mkdir_keeps|].
    intros _ s2 _. by apply tryIgnore_keeps, writeFile_keeps.
  - intros _ s2 _. apply forEach_keeps. intros key s3. apply extractKey_keeps.
Qed.

Lemma encodedLoop_keeps cacheDir encoded (o : gmap string string) s :
  keeps (foldM encoded
           (fun overrides asset =>
              bind (extractAsset cacheDir asset) (fun _ =>
              ret (registerAll (m_keys asset) (embedOutputPath cacheDir asset) overrides)))
           o) s.
Proof using All.
  revert o s. induction encoded as [|asset encoded IH]; intros o s; simpl;
    [apply ret_keeps|].
  apply bind_keeps.
  - apply bind_keeps; [apply extractAsset_keeps|]. intros _ s1 _. apply ret_keeps.
  - intros o' s1 _. apply IH.
Qed.

Lemma embedBlock_keeps cacheDir encoded entries s :
  keeps (embedBlock cacheDir encoded entries) s.
Proof using All.
  unfold embedBlock. apply bind_keeps.
  - apply tryIgnore_keeps, bind_keeps; [by intros Hk|].
    intros present s1 _. destruct (negb present); [apply mkdir_keeps|apply ret_keeps].
  - intros _ s1 _. apply bind_keeps; [apply encodedLoop_keeps|].
    intros o s2 _. apply ret_keeps.
Qed.

(** X16: extraction never touches a file that is already there.  Under
    the laws above, a path that exists before the embed-mode block runs
    still exists afterwards and reads the same: files are written only
    where the existence test failed, also when earlier calls threw. *)
Theorem extraction_keeps_existing_files (cacheDir : string)
    (encoded entries : list ManifestEntry) :
  existsSync q s0 = true ->
  existsSync q (snd (embedBlock cacheDir encoded entries s0)) = true
  /\ content q (snd (embedBlock cacheDir encoded entries s0)) = content q s0.
Proof using All.
  intros He. by apply (embedBlock_keeps cacheDir encoded entries s0).
Qed.

End ExtractionKeeps.

Lemma memory_write_exists (p d q : string) (s : gmap string string) :
  bool_decide (is_Some (s !! q)) = true ->
  bool_decide (is_Some (<[p := d]> s !! q)) = true.
Proof.
  intros Hq%bool_decide_eq_true. apply bool_decide_eq_true.
  rewrite lookup_insert. by case_decide.
Qed.

Lemma extraction_keeps_existing_files_witness :
  @snd _ (gmap string string)
    (@embedBlock logoHost memoryRuntime "/cache/abc"
       [mkManifestEntry "./a.txt" "a.txt" ["./a.txt"] "bmV3"] []
       {[ "/cache/abc/a.txt" := "old" ]})
    !! "/cache/abc/a.txt" = Some "old".
Proof.
  destruct (@extraction_keeps_existing_files logoHost memoryRuntime
           (fun q (s : gmap string string) => s !! q)
           (fun p q s E => E) memory_write_exists (fun p q s E => eq_refl)
           (fun p d q (s : gmap string string) Hne => lookup_insert_ne s p q d (not_eq_sym Hne))
           "/cache/abc/a.txt" {[ "/cache/abc/a.txt" := "old" ]} "/cache/abc"
           [mkManifestEntry "./a.txt" "a.txt" ["./a.txt"] "bmV3"] [])
    as [_ Hc]; [reflexivity|].
  exact Hc.
Defined.

(** ** Plugin set-up *)

Section SetupFacts.
Context `{Host}.

Lemma setupLayout_Ok extractionDir config l :
  setupLayout extractionDir config = Ok l ->
  cfg_target config <> "browser"
  /\ isCompile l = isCompileOf (cfg_compile config)
  /\ (isCompile l = true \/ Js.truthyOpt (bundleOutputRoot l) = true)
  /\ bundleOutputRoot l
     = match cfg_outdir config with
       | Some outdir => Some outdir
       | None =>
           match compileOutfileOf (cfg_compile config) with
           | Some outfile =>
               if Js.truthy outfile then Some (dirname (resolvePath cwd outfile)) else None
           | None => None
           end
       end.
Proof.
  unfold setupLayout.
  destruct (String.eqb_spec (cfg_target config) "browser") as [|Hne]; [done|].
  destruct (match extractionDir with Some _ => _ | None => _ end) as [abs|e]; [|done].
  set (root := match cfg_outdir config with Some _ => _ | None => _ end).
  destruct (isCompileOf (cfg_compile config)) eqn:Hc; simpl.
  - intros [= <-]. simpl. auto.
  - destruct (Js.truthyOpt root) eqn:Hr; [|done]. simpl.
    intros [= <-]. simpl. auto.
Qed.

(** X17: outside compile mode the build needs a non-empty [outdir].  A
    compile [outfile] cannot stand in for it, since a configuration that
    has one is in compile mode; the files are then emitted under
    [outdir], and no temporary directory is made. *)
Theorem copy_mode_needs_outdir (extractionDir : option string) (config : buildConfig)
    (l : layout) :
  setupLayout extractionDir config = Ok l -> isCompile l = false ->
  exists outdir,
    cfg_outdir config = Some outdir /\ outdir <> ""
    /\ bundleOutputRoot l = Some outdir
    /\ forall tempDir, tempOutdirOf tempDir l = None /\ emissionRootOf tempDir l = outdir.
Proof.
  intros (_ & Hc & Hor & Hroot)%setupLayout_Ok Hcopy.
  destruct Hor as [Hor|Hor]; [congruence|].
  rewrite Hcopy in Hc.
  destruct (cfg_outdir config) as [outdir|].
  - exists outdir. rewrite Hroot in *. simpl in Hor.
    split; [done|]. split; [by apply truthy_true_iff|]. split; [done|].
    intros tempDir. unfold tempOutdirOf, emissionRootOf. rewrite Hroot, Hcopy.
    by rewrite andb_false_r.
  - destruct (cfg_compile config) as [|b|[outfile|]]; simpl in *;
      try discriminate; rewrite Hroot in Hor; simpl in Hor; discriminate.
Qed.

(** X18: where the files go.  After the configuration checks the
    emission root is the output root when there is one and the temporary
    directory otherwise: the working directory is never used.  The
    temporary directory is made exactly in compile mode without a
    non-empty output root. *)
Theorem emission_root_is_never_cwd (extractionDir : option string) (config : buildConfig)
    (l : layout) (tempDir : string) :
  setupLayout extractionDir config = Ok l ->
  emissionRootOf tempDir l = default tempDir (bundleOutputRoot l)
  /\ (tempOutdirOf tempDir l = Some tempDir <->
      isCompile l = true /\ Js.truthyOpt (bundleOutputRoot l) = false).
Proof.
  intros (_ & _ & Hor & _)%setupLayout_Ok.
  unfold emissionRootOf, tempOutdirOf. split.
  - destruct (bundleOutputRoot l) as [root|]; [done|]. simpl.
    destruct Hor as [->|]; done.
  - destruct (Js.truthyOpt (bundleOutputRoot l)), (isCompile l); simpl; split;
      try done; intros [? ?]; done.
Qed.

End SetupFacts.

Lemma copy_mode_needs_outdir_witness :
  exists outdir,
    cfg_outdir (mkBuildConfig "bun" (Some "dist") (CompileFlag false) ["src/main.ts"])
      = Some outdir
    /\ outdir <> "".
Proof.
  destruct (@copy_mode_needs_outdir logoHost None
              (mkBuildConfig "bun" (Some "dist") (CompileFlag false) ["src/main.ts"])
              (mkLayout None false (Some "dist")) eq_refl eq_refl)
    as (outdir & Hout & Hne & _).
  exists outdir. split; [exact Hout|exact Hne].
Defined.

Lemma emission_root_is_never_cwd_witness :
  @emissionRootOf logoHost "/tmp/bundle-assets-x1"
    (mkLayout None true None) = "/tmp/bundle-assets-x1".
Proof.
  apply (@emission_root_is_never_cwd logoHost None
           (mkBuildConfig "bun" None (CompileFlag true) ["src/main.ts"])
           (mkLayout None true None) "/tmp/bundle-assets-x1").
  reflexivity.
Defined.

(** ** Injection into the entry points *)

Section InjectionFacts.
Context `{Host}.
Variable injection : string.
Variable readText : string -> string.
Variable eps : list string.

Lemma includes_app x l1 l2 : Js.includes x (l1 ++ l2) = Js.includes x l1 || Js.includes x l2.
Proof. unfold Js.includes. apply existsb_app. Qed.

Lemma includes_cons x y l : Js.includes x (y :: l) = String.eqb x y || Js.includes x l.
Proof. reflexivity. Qed.

(** The result of the [i]-th load, for any set of already injected
    entry points. *)
Lemma onLoads_lookup injected paths i p :
  paths !! i = Some p ->
  let normalized := resolvePath cwd p in
  onLoads injection readText eps injected paths !! i
  = Some (if Js.includes normalized eps
             && negb (Js.includes normalized injected
                      || Js.includes normalized (map (resolvePath cwd) (take i paths)))
          then Some (injection +:+ newline +:+ readText p)
          else None).
Proof.
  revert injected i. induction paths as [|p0 paths IH]; intros injected i; [done|].
  destruct i as [|i]; simpl.
  - intros [= ->]. unfold onLoad.
    destruct (Js.includes (resolvePath cwd p) eps); simpl.
    + rewrite orb_false_r. by destruct (Js.includes (resolvePath cwd p) injected).
    + done.
  - intros Hp. unfold onLoad at 1.
    destruct (negb (Js.includes (resolvePath cwd p0) eps)
              || Js.includes (resolvePath cwd p0) injected) eqn:Hskip.
    + change ((None :: onLoads injection readText eps injected paths) !! S i)
        with (onLoads injection readText eps injected paths !! i).
      rewrite (IH injected i Hp). do 2 f_equal.
      destruct (String.eqb_spec (resolvePath cwd p) (resolvePath cwd p0)) as [E|]; [|done].
      rewrite <- E in Hskip.
      destruct (Js.includes (resolvePath cwd p) eps),
        (Js.includes (resolvePath cwd p) injected); simpl in *; done.
    + change ((Some (injection +:+ newline +:+ readText p0)
               :: onLoads injection readText eps (injected ++ [resolvePath cwd p0]) paths)
              !! S i)
        with (onLoads injection readText eps (injected ++ [resolvePath cwd p0]) paths !! i).
      rewrite (IH (injected ++ [resolvePath cwd p0]) i Hp). do 2 f_equal.
      rewrite includes_app, includes_cons. simpl.
      by rewrite orb_false_r, <- orb_assoc.
Qed.

(** X19: the block is injected at most once per entry point.  Over any
    sequence of loaded files, a file gets the block in front of its text
    exactly when its resolved path is a configured entry point and no file
    with that resolved path was loaded before; every other load leaves the
    file as it is. *)
Theorem injected_once_per_entrypoint (paths : list string) (i : nat) (p : string) :
  paths !! i = Some p ->
  let normalized := resolvePath cwd p in
  onLoads injection readText eps [] paths !! i
  = Some (if Js.includes normalized eps
             && negb (Js.includes normalized (map (resolvePath cwd) (take i paths)))
          then Some (injection +:+ newline +:+ readText p)
          else None).
Proof. intros Hp. by rewrite (onLoads_lookup [] paths i p Hp). Qed.

End InjectionFacts.

Lemma injected_once_per_entrypoint_witness :
  @onLoads logoHost "/*block*/" (fun p => "main()") ["/proj/src/main.ts"] []
    ["src/util.ts"; "src/main.ts"; "/proj/src/../src/main.ts"] !! 2
  = Some None.
Proof.
  apply (@injected_once_per_entrypoint logoHost "/*block*/" (fun p => "main()")
           ["/proj/src/main.ts"]
           ["src/util.ts"; "src/main.ts"; "/proj/src/../src/main.ts"] 2
           "/proj/src/../src/main.ts").
  reflexivity.
Defined.

(** ** Output paths, empty keys, repeated blocks *)

Section TableFacts.
Context `{Host} `{Runtime}.

Lemma registerAll_own keys value (o : gmap string string) k :
  In k (value :: pathToFileURL value :: keys) -> k <> "" -> o !! k = None ->
  registerAll keys value o !! k = Some value.
Proof.
  intros Hin Hne Hfree.
  change (registerAll keys value o)
    with (foldl (fun o key => registerKey key value o) o
            (value :: pathToFileURL value :: keys)).
  by apply foldl_registerKey_member.
Qed.

Lemma registerEntries_own out before asset after k :
  In k (out asset :: pathToFileURL (out asset) :: m_keys asset) -> k <> "" ->
  registerEntries out before ∅ !! k = None ->
  registerEntries out (before ++ asset :: after) ∅ !! k = Some (out asset).
Proof.
  intros Hin Hne Hfree. rewrite registerEntries_app.
  change (asset :: after) with ([asset] ++ after).
  rewrite registerEntries_app. apply registerEntries_preserves.
  unfold registerEntries. simpl foldl. by apply registerAll_own.
Qed.

(** X20: resolving is stable.  The output path of an entry, and the file
    URL of that path, are registered like its keys: unless an earlier
    entry took them, both resolve to the output path itself, so resolving
    the result of a resolution gives the same path again. *)
Theorem output_path_resolves_to_itself (globalKey : string)
    (out : ManifestEntry -> string) (before after : list ManifestEntry)
    (asset : ManifestEntry) (options : option string)
    (globals : gmap string (gmap string string)) (k : string) :
  k = out asset \/ k = pathToFileURL (out asset) ->
  k <> "" -> registerEntries out before ∅ !! k = None ->
  let globals' :=
    merge globalKey (registerEntries out (before ++ asset :: after) ∅) globals in
  findOverride globalKey k globals' = Some (out asset)
  /\ (forall original,
        patched globalKey original k options globals' = (Ok (out asset), globals')).
Proof.
  intros Hk Hne Hfree globals'.
  assert (findOverride globalKey k globals' = Some (out asset)) as Hf.
  { apply findOverride_direct; [done|]. subst globals'. rewrite tableOf_merge.
    rewrite (registerEntries_own out before asset after k); [done| |done..].
    destruct Hk as [->| ->]; simpl; auto. }
  split; [done|]. intros original. unfold patched. by rewrite Hf.
Qed.

Lemma addVariant_nonempty c vs : "" ∉ vs -> "" ∉ addVariant c vs.
Proof. intros Hvs [Hin|[-> Hne]]%addVariant_elem; done. Qed.

Lemma keyVariants_nonempty key : key <> "" -> "" ∉ keyVariants key.
Proof.
  intros Hne. unfold keyVariants.
  assert ("" ∉ [key]) as H1 by (intros E%list_elem_of_singleton; congruence).
  repeat match goal with
         | |- context [if ?b then _ else _] => destruct b
         | |- context [match ?r with Ok _ => _ | Throw _ => _ end] => destruct r
         | |- _ ∉ addVariant _ _ => apply addVariant_nonempty
         end; done.
Qed.

Lemma registerKey_no_empty key value (o : gmap string string) :
  o !! "" = None -> registerKey key value o !! "" = None.
Proof.
  intros Ho. unfold registerKey. destruct (Js.truthy key) eqn:E; [|done]. simpl.
  rewrite foldl_setIfAbsent_lookup, Ho.
  rewrite decide_False; [done|]. by apply keyVariants_nonempty, truthy_true_iff.
Qed.

Lemma registerAll_no_empty keys value (o : gmap string string) :
  o !! "" = None -> registerAll keys value o !! "" = None.
Proof.
  intros Ho. unfold registerAll.
  assert (forall o : gmap string string, o !! "" = None ->
            foldl (fun o key => registerKey key value o) o keys !! "" = None) as Hfold.
  { induction keys as [|k ks IH]; intros o' Ho'; [done|]. simpl.
    by apply IH, registerKey_no_empty. }
  by apply Hfold, registerKey_no_empty, registerKey_no_empty.
Qed.

(** X21: the empty string is never a key.  Whatever the manifest holds, the
    table a block builds has no entry for the empty string, so after the
    merge into a fresh global the helper answers [null] for it. *)
Theorem empty_key_is_never_registered (globalKey : string)
    (out : ManifestEntry -> string) (entries : list ManifestEntry) :
  registerEntries out entries ∅ !! "" = None
  /\ getBundleAsset globalKey "" (merge globalKey (registerEntries out entries ∅) ∅) = None.
Proof.
  assert (forall o : gmap string string, o !! "" = None ->
            registerEntries out entries o !! "" = None) as Hreg.
  { induction entries as [|a l IH]; intros o Ho; [done|].
    change (registerEntries out (a :: l) o)
      with (registerEntries out l (registerAll (m_keys a) (out a) o)).
    by apply IH, registerAll_no_empty. }
  split; [by apply Hreg|].
  unfold getBundleAsset, merge. rewrite lookup_insert_eq, lookup_empty.
  change (findOverride globalKey "" _) with (@None string).
  rewrite merge_fold_lookup, lookup_empty. by rewrite Hreg.
Qed.

End TableFacts.



Lemma output_path_resolves_to_itself_witness :
  @findOverride logoHost "__bundleAssets" "file:///app/a.txt"
    (merge "__bundleAssets"
       (@registerEntries logoHost Posix.readOnlyRuntime
          (@copyOutputPath logoHost Posix.readOnlyRuntime) [firstShared; secondShared] ∅)
       ∅)
  = Some "/app/a.txt".
Proof.
  apply (@output_path_resolves_to_itself logoHost Posix.readOnlyRuntime "__bundleAssets"
           (@copyOutputPath logoHost Posix.readOnlyRuntime) [] [secondShared] firstShared
           None ∅ "file:///app/a.txt").
  - by right.
  - done.
  - reflexivity.
Defined.

(** ** Bounded work of the resolution chain *)

Section ResolverBounds.
Context `{Host}.
Variable spec : string.

(** The existence tests and resolver calls made so far are within
    [a] and [r]. *)
Let within (a r : nat) (st : rstate) : Prop :=
  length (st_attempted st) <= a /\ resolverCalls (st_trace st) <= r.

Lemma resolverCalls_app tr1 tr2 :
  resolverCalls (tr1 ++ tr2) = resolverCalls tr1 + resolverCalls tr2.
Proof. unfold resolverCalls. by rewrite flat_map_app, length_app. Qed.

Lemma resolverCalls_snoc tr ev :
  resolverCalls (tr ++ [ev])
  = resolverCalls tr + match ev with EvResolve _ _ => 1 | _ => 0 end.
Proof. rewrite resolverCalls_app. by destruct ev. Qed.

Local Arguments resolverCalls : simpl never.

Lemma within_mono a r a' r' st : a <= a' -> r <= r' -> within a r st -> within a' r' st.
Proof. intros Ha Hr [H1 H2]. split; lia. Qed.

Lemma tryPath_within p a r st : within a r st -> within (S a) r (snd (tryPath p st)).
Proof.
  intros [Ha Hr]. unfold tryPath. destruct (Js.includes _ _); [split; simpl; lia|].
  destruct (fileExists _); split; simpl;
    rewrite ?length_app, ?resolverCalls_snoc; simpl; lia.
Qed.

Lemma tryUrl_within u a r st : within a r st -> within (S a) r (snd (tryUrl u st)).
Proof.
  intros Hw. unfold tryUrl, toFilePath.
  assert (forall ev, within a r (record (EvToPath u ev) st)) as Hrec.
  { intros ev. destruct Hw as [Ha Hr]. split; simpl; [done|].
    rewrite resolverCalls_snoc. simpl. lia. }
  destruct (Js.startsWith "file://" u).
  - destruct (fileURLToPath u) as [filePath|err].
    + pose proof (tryPath_within filePath a r _ (Hrec (Ok filePath))) as Hp.
      destruct (tryPath filePath _) as [matched st']. simpl in Hp.
      destruct (st_sourcePath st') as [sp|]; [|done].
      by destruct (matched && Js.truthy sp).
    + destruct (Hrec (Throw err)) as [Ha Hr]. split; simpl in *; lia.
  - pose proof (tryPath_within (if isAbsolute u then u else resolvePath cwd u) a r st Hw)
      as Hp.
    destruct (tryPath _ st) as [matched st']. simpl in Hp.
    destruct (st_sourcePath st') as [sp|]; [|done].
    by destruct (matched && Js.truthy sp).
Qed.

Lemma attemptImportMetaResolve_within parent a r st :
  within a r st -> within (S a) (S r) (snd (attemptImportMetaResolve spec parent st)).
Proof.
  intros [Ha Hr]. unfold attemptImportMetaResolve.
  set (ev := EvResolve _ _).
  assert (within a (S r) (record ev st)) as Hrec.
  { split; simpl; [done|]. subst ev. rewrite resolverCalls_snoc. lia. }
  destruct (metaResolve spec _) as [url|err].
  - by apply tryUrl_within.
  - destruct Hrec as [Ha' Hr']. split; simpl in *; lia.
Qed.

Lemma tryDirs_within dirs a r st :
  within a r st -> within (length dirs + a) r (tryDirs spec dirs st).
Proof.
  revert a st. induction dirs as [|d dirs IH]; intros a st Hw; simpl; [done|].
  pose proof (tryPath_within (resolvePath d spec) a r st Hw) as Hp.
  destruct (tryPath _ st) as [[] st']; simpl in Hp.
  - eapply within_mono; [| |exact Hp]; lia.
  - eapply within_mono; [| |apply (IH (S a) st' Hp)]; lia.
Qed.

Lemma tryParents_within parents a r st :
  within a r st ->
  within (length parents + a) (length parents + r) (tryParents spec parents st).
Proof.
  revert a r st. induction parents as [|p parents IH]; intros a r st Hw; simpl; [done|].
  pose proof (attemptImportMetaResolve_within (Some p) a r st Hw) as Hp.
  destruct (attemptImportMetaResolve spec (Some p) st) as [[] st']; simpl in Hp.
  - eapply within_mono; [| |exact Hp]; lia.
  - eapply within_mono; [| |apply (IH (S a) (S r) st' Hp)]; lia.
Qed.

(** X23: the work of one resolution is bounded by the number of entry
    points [n]: at most [2 * n + 4] paths are tested for existence and
    [import.meta.resolve] is called at most [n + 1] times. *)
Theorem resolution_is_bounded (eps : list string) :
  length (checkedPaths (st_trace (resolveChain spec eps))) <= 2 * length eps + 4
  /\ resolverCalls (st_trace (resolveChain spec eps)) <= length eps + 1.
Proof.
  destruct (resolveChain_consistent spec eps) as (<- & _ & _).
  change (within (2 * length eps + 4) (length eps + 1) (resolveChain spec eps)).
  unfold resolveChain.
  set (st1 := if Js.startsWith "file://" spec then _ else _).
  assert (within 1 0 st1) as H1.
  { subst st1. destruct (Js.startsWith "file://" spec).
    - apply tryUrl_within. by split.
    - destruct (isAbsolute spec); [apply tryPath_within; by split|].
      split; [simpl; lia|unfold resolverCalls; simpl; lia]. }
  clearbody st1.
  set (st2 := if unresolved st1 && isRelative spec then _ else _).
  assert (within (length eps + 2) 0 st2) as H2.
  { subst st2. destruct (unresolved st1 && isRelative spec).
    - pose proof (tryPath_within (resolvePath cwd spec) 1 0 st1 H1) as Hp.
      destruct (unresolved _).
      + pose proof (tryDirs_within (map dirname eps) 2 0 _ Hp) as Hd.
        rewrite length_map in Hd. exact Hd.
      + eapply within_mono; [| |exact Hp]; lia.
    - eapply within_mono; [| |exact H1]; lia. }
  clearbody st2.
  set (st3 := if unresolved st2 then _ else _).
  assert (within (2 * length eps + 2) (length eps) st3) as H3.
  { subst st3. destruct (unresolved st2).
    - pose proof (tryParents_within (map pathToFileURL eps) _ _ _ H2) as Hp.
      rewrite length_map in Hp. eapply within_mono; [| |exact Hp]; lia.
    - eapply within_mono; [| |exact H2]; lia. }
  clearbody st3.
  set (st4 := if unresolved st3 then _ else _).
  assert (within (2 * length eps + 3) (length eps + 1) st4) as H4.
  { subst st4. destruct (unresolved st3).
    - pose proof (attemptImportMetaResolve_within None _ _ _ H3) as Hp.
      eapply within_mono; [| |exact Hp]; lia.
    - eapply within_mono; [| |exact H3]; lia. }
  clearbody st4.
  destruct (unresolved st4 && negb (isUrlOrAbsolute spec)).
  - pose proof (tryPath_within (resolvePath cwd spec) _ _ _ H4) as Hp.
    eapply within_mono; [| |exact Hp]; lia.
  - eapply within_mono; [| |exact H4]; lia.
Qed.

End ResolverBounds.
